(** * Dark Web Monitor: the breach-ingestion and alerting core

    A shallow embedding of [backend/server.py]: the three MongoDB
    collections, the HaveIBeenPwned client, and the endpoints
    [get_domain_breaches], [add_domain_monitor], [search_email_breaches],
    [comprehensive_scan] and [dismiss_alert], followed by the properties
    the specification states about them.

    Conventions of the model.
    - Text is [string]: sequences of 8-bit characters, read as ASCII.
      [lower] is Python's [str.lower] on that alphabet.
    - A stored date is a BSON UTC datetime: milliseconds since the Unix
      epoch, as pymongo writes a Python [datetime].
    - Everything the source file does not define is a field of [World]:
      the provider's answers, the uuid and clock readings, and the two
      library parsers ([datetime.fromisoformat], the store's regular
      expression engine).
    - An endpoint is a computation in the monad [M]: it threads the
      [State] (the collections and how much of the world was consumed)
      and either returns or raises, as the Python does.
    - A catalogue entry is a dict whose keys may be missing; a key that is
      present holds a value of the provider's type for it.
    - Store operations themselves do not raise (the store is reachable). *)

From stdpp Require Import base option list strings pretty sorting.
From Stdlib Require Import ZArith Lia.
From Stdlib Require Import Ascii.
From Stdlib Require String.

#[local] Open Scope string_scope.
#[local] Open Scope list_scope.
#[local] Open Scope Z_scope.

(* ================================================================== *)
(** ** Text *)

(** [str.lower] on one ASCII character. *)
Definition lower_char (c : ascii) : ascii :=
  let n := N_of_ascii c in
  if ((65 <=? n) && (n <=? 90))%N then ascii_of_N (n + 32) else c.

(** [s.lower()] *)
Fixpoint lower (s : string) : string :=
  match s with
  | EmptyString => EmptyString
  | String c s' => String (lower_char c) (lower s')
  end.

(** [sub in s] for two strings: [sub] starts at some position of [s]. *)
Fixpoint contains (sub s : string) : bool :=
  String.prefix sub s ||
  match s with
  | EmptyString => false
  | String _ s' => contains sub s'
  end.

(** What [contains] decides. *)
Definition substring_of (sub s : string) : Prop :=
  exists pre post, s = pre +:+ sub +:+ post.

(** [s.split(sep)] for a one-character separator: never empty. *)
Fixpoint split (sep : ascii) (s : string) : list string :=
  match s with
  | EmptyString => [EmptyString]
  | String c s' =>
      if decide (c = sep) then EmptyString :: split sep s'
      else match split sep s' with
           | piece :: rest => String c piece :: rest
           | [] => [String c EmptyString]
           end
  end.

(* ================================================================== *)
(** ** Data *)

(** A BSON UTC datetime, in milliseconds since 1970-01-01T00:00:00Z. *)
Definition datetime := Z.

(** One entry of the provider's catalogue, as [response.json()] decodes
    it: a dict whose keys may be missing ([breach.get(key, default)]). *)
Module Raw.
Record breach := Breach {
  Name : option string;
  Domain : option string;
  PwnCount : option Z;
  BreachDate : option string;
  DataClasses : option (list string);
  Description : option string;
  IsVerified : option bool
}.
End Raw.

(** The [breaches] collection. [data] is the dict [breach_data] built in
    [get_domain_breaches]; [doc] is what the store holds for it. *)
Module Breach.
Record data := Data {
  id : string;
  breach_name : string;
  domain : string;
  emails_compromised : Z;
  breach_date : datetime;
  data_classes : list string;
  description : string;
  verified : bool;
  source : string;
  created_at : datetime
}.
Record doc := Doc { _id : nat; fields : data }.
End Breach.

(** The [monitored_domains] collection ([domain_record]). *)
Module Monitor.
Record doc := Doc {
  _id : nat;
  id : string;
  domain : string;
  email_patterns : list string;
  created_at : datetime;
  status : string
}.
End Monitor.

(** The [alerts] collection. [dismissed_at] is absent until
    [dismiss_alert] sets it. *)
Module Alert.
Record doc := Doc {
  _id : nat;
  id : string;
  domain : string;
  breach_name : string;
  severity : string;
  message : string;
  created_at : datetime;
  status : string;
  dismissed_at : option datetime
}.
End Alert.

#[global] Instance raw_breach_eq_dec : EqDecision Raw.breach.
Proof. solve_decision. Defined.
#[global] Instance breach_data_eq_dec : EqDecision Breach.data.
Proof. solve_decision. Defined.
#[global] Instance breach_doc_eq_dec : EqDecision Breach.doc.
Proof. solve_decision. Defined.
#[global] Instance alert_doc_eq_dec : EqDecision Alert.doc.
Proof. solve_decision. Defined.

(** The body of [DomainMonitor] after validation. *)
Record DomainMonitor := {
  dm_domain : string;
  dm_email_patterns : list string
}.

(** What [get_domain_breaches] returns: [{"breaches", "count"}] and, on
    the two failure paths, a ["message"] or an ["error"]. *)
Module ScanResult.
Record t := Make {
  breaches : list Raw.breach;
  count : Z;
  message : option string;
  error : option string
}.
End ScanResult.

(** One element of [scan_results] in [comprehensive_scan]. *)
Module ScanEntry.
Record t := Make {
  domain : string;
  breaches_found : option Z;
  status : string;
  error : option string
}.
End ScanEntry.

(** What [comprehensive_scan] returns. *)
Module ScanReport.
Record t := Make {
  message : string;
  scanned_domains : option Z;
  results : option (list ScanEntry.t);
  error : option string
}.
End ScanReport.

(** What [add_domain_monitor] returns; [id] is the store's [_id]. *)
Module MonitorReply.
Record t := Make { message : string; id : nat }.
End MonitorReply.

(** What [search_email_breaches] returns. *)
Module EmailReply.
Record t := Make {
  email : option string;
  breaches_found : Z;
  breaches : list Breach.doc;
  status : option string;
  error : option string
}.
End EmailReply.

(** What [dismiss_alert] returns. *)
Module DismissReply.
Record t := Make { message : string; modified : Z }.
End DismissReply.

(* ================================================================== *)
(** ** The world outside the source file *)

(** The outcome of [requests.get(".../breaches", timeout=10)]: the call
    raises (timeout, connection error), or a response arrives, whose
    [json()] either raises or is the decoded catalogue. *)
Inductive HttpOutcome :=
  | ConnectionFailed (reason : string)
  | Responded (status_code : Z) (json : string + list Raw.breach).

Record World := {
  (** the provider's answer to the n-th request *)
  hibp : nat -> HttpOutcome;
  (** the n-th [uuid.uuid4()], as text *)
  uuid_source : nat -> string;
  (** the n-th reading of [datetime.now()] *)
  clock : nat -> datetime;
  (** [datetime.fromisoformat]: the parsed date, or the [ValueError]'s text *)
  fromisoformat : string -> string + datetime;
  (** the store's [$regex] with option [i]: the pattern's error, or its
      unanchored case-insensitive search *)
  regex_i : string -> string + (string -> bool)
}.

(** Python exceptions, all subclasses of [Exception]. *)
Inductive exn :=
  | RequestException (text : string)
  | JSONDecodeError (text : string)
  | ValueError (text : string)
  | OperationFailure (text : string)
  | IndexError (text : string).

(** [str(e)] *)
Definition str (e : exn) : string :=
  match e with
  | RequestException t | JSONDecodeError t | ValueError t
  | OperationFailure t | IndexError t => t
  end.

(* ================================================================== *)
(** ** State and the monad of endpoints *)

Record State := {
  breaches_collection : list Breach.doc;
  domains_collection : list Monitor.doc;
  alerts_collection : list Alert.doc;
  (** how many [_id]s the store has generated *)
  oids_issued : nat;
  (** how many requests went to the provider *)
  requests_made : nat;
  (** how many uuids were drawn *)
  uuids_drawn : nat;
  (** how many times the clock was read *)
  clock_reads : nat
}.

Inductive Result (A : Type) :=
  | Returned (a : A)
  | Raised (e : exn).
Arguments Returned {A} a.
Arguments Raised {A} e.

Definition M (A : Type) : Type := State -> Result A * State.

#[global] Instance M_ret : MRet M := fun A a st => (Returned a, st).

#[global] Instance M_bind : MBind M := fun A B f m st =>
  match m st with
  | (Returned a, st') => f a st'
  | (Raised e, st') => (Raised e, st')
  end.

(** [raise e] *)
Definition raise {A} (e : exn) : M A := fun st => (Raised e, st).

(** [try: body / except Exception as e: handler e] *)
Definition try_except {A} (body : M A) (handler : exn -> M A) : M A :=
  fun st =>
    match body st with
    | (Returned a, st') => (Returned a, st')
    | (Raised e, st') => handler e st'
    end.

(** [for x in xs: body x] *)
Fixpoint for_each {A} (xs : list A) (body : A -> M unit) : M unit :=
  match xs with
  | [] => mret tt
  | x :: xs' => body x ;; for_each xs' body
  end.

(** A loop that rebinds a local it carries from one iteration to the next. *)
Fixpoint for_fold {A B} (xs : list A) (acc : B) (body : B -> A -> M B) : M B :=
  match xs with
  | [] => mret acc
  | x :: xs' => acc' ← body acc x; for_fold xs' acc' body
  end.

(** Writes to one component of the state. *)
Definition set_breaches (c : list Breach.doc) (st : State) : State :=
  {| breaches_collection := c;
     domains_collection := domains_collection st;
     alerts_collection := alerts_collection st;
     oids_issued := oids_issued st;
     requests_made := requests_made st;
     uuids_drawn := uuids_drawn st;
     clock_reads := clock_reads st |}.

Definition set_domains (c : list Monitor.doc) (st : State) : State :=
  {| breaches_collection := breaches_collection st;
     domains_collection := c;
     alerts_collection := alerts_collection st;
     oids_issued := oids_issued st;
     requests_made := requests_made st;
     uuids_drawn := uuids_drawn st;
     clock_reads := clock_reads st |}.

Definition set_alerts (c : list Alert.doc) (st : State) : State :=
  {| breaches_collection := breaches_collection st;
     domains_collection := domains_collection st;
     alerts_collection := c;
     oids_issued := oids_issued st;
     requests_made := requests_made st;
     uuids_drawn := uuids_drawn st;
     clock_reads := clock_reads st |}.

Definition issue_oid (st : State) : State :=
  {| breaches_collection := breaches_collection st;
     domains_collection := domains_collection st;
     alerts_collection := alerts_collection st;
     oids_issued := S (oids_issued st);
     requests_made := requests_made st;
     uuids_drawn := uuids_drawn st;
     clock_reads := clock_reads st |}.

Definition count_request (st : State) : State :=
  {| breaches_collection := breaches_collection st;
     domains_collection := domains_collection st;
     alerts_collection := alerts_collection st;
     oids_issued := oids_issued st;
     requests_made := S (requests_made st);
     uuids_drawn := uuids_drawn st;
     clock_reads := clock_reads st |}.

Definition count_uuid (st : State) : State :=
  {| breaches_collection := breaches_collection st;
     domains_collection := domains_collection st;
     alerts_collection := alerts_collection st;
     oids_issued := oids_issued st;
     requests_made := requests_made st;
     uuids_drawn := S (uuids_drawn st);
     clock_reads := clock_reads st |}.

Definition count_clock (st : State) : State :=
  {| breaches_collection := breaches_collection st;
     domains_collection := domains_collection st;
     alerts_collection := alerts_collection st;
     oids_issued := oids_issued st;
     requests_made := requests_made st;
     uuids_drawn := uuids_drawn st;
     clock_reads := S (clock_reads st) |}.

(* ================================================================== *)
(** ** Store operations, as the endpoints call them *)

(** The filter [{"breach_name": n}]. *)
Definition named (n : string) (d : Breach.doc) : Prop :=
  Breach.breach_name (Breach.fields d) = n.

#[global] Instance named_dec n d : Decision (named n d).
Proof. unfold named. apply _. Defined.

(** [breaches_collection.update_one({"breach_name": n}, {"$set": data},
    upsert=True)] on the collection and the store's supply of [_id]s: the
    first document named [n] takes every field of [data] and keeps its
    [_id]; when there is none, a document with a fresh [_id] is added. *)
Definition upsert (s : list Breach.doc * nat) (data : Breach.data)
  : list Breach.doc * nat :=
  match list_find (named (Breach.breach_name data)) s.1 with
  | Some (i, d) => (<[i := Breach.Doc (Breach._id d) data]> s.1, s.2)
  | None => (s.1 ++ [Breach.Doc s.2 data], S s.2)
  end.

Definition set_oids (n : nat) (st : State) : State :=
  {| breaches_collection := breaches_collection st;
     domains_collection := domains_collection st;
     alerts_collection := alerts_collection st;
     oids_issued := n;
     requests_made := requests_made st;
     uuids_drawn := uuids_drawn st;
     clock_reads := clock_reads st |}.

Definition breaches_update_one_upsert (data : Breach.data) : M unit :=
  fun st =>
    let s := upsert (breaches_collection st, oids_issued st) data in
    (Returned tt, set_oids s.2 (set_breaches s.1 st)).

(** [domains_collection.find_one({"domain": d})] *)
Definition domains_find_one (d : string) : M (option Monitor.doc) :=
  fun st =>
    (Returned (snd <$> list_find (fun m => Monitor.domain m = d) (domains_collection st)),
     st).

(** [domains_collection.insert_one(record)]: returns [inserted_id]. *)
Definition domains_insert_one (record : nat -> Monitor.doc) : M nat :=
  fun st =>
    let oid := oids_issued st in
    (Returned oid, issue_oid (set_domains (domains_collection st ++ [record oid]) st)).

(** [list(domains_collection.find())] *)
Definition domains_find : M (list Monitor.doc) :=
  fun st => (Returned (domains_collection st), st).

(** [alerts_collection.insert_one(alert)] *)
Definition alerts_insert_one (alert : nat -> Alert.doc) : M unit :=
  fun st =>
    (Returned tt,
     issue_oid (set_alerts (alerts_collection st ++ [alert (oids_issued st)]) st)).

(** What [{"$set": {"status": "dismissed", "dismissed_at": now}}] makes of
    an alert. *)
Definition set_dismissed (now : datetime) (a : Alert.doc) : Alert.doc :=
  Alert.Doc (Alert._id a) (Alert.id a) (Alert.domain a) (Alert.breach_name a)
            (Alert.severity a) (Alert.message a) (Alert.created_at a)
            "dismissed" (Some now).

(** [alerts_collection.update_one({"id": alert_id}, {"$set": ...})]:
    returns [modified_count], which is 1 when a document matched and the
    update changed it. *)
Definition alerts_update_one (alert_id : string) (now : datetime) : M Z :=
  fun st =>
    match list_find (fun a => Alert.id a = alert_id) (alerts_collection st) with
    | Some (i, a) =>
        (Returned (if decide (set_dismissed now a = a) then 0 else 1),
         set_alerts (<[i := set_dismissed now a]> (alerts_collection st)) st)
    | None => (Returned 0, st)
    end.

(* ================================================================== *)
(** ** The endpoints *)

Section Engine.

Variable W : World.

(** [requests.get(f"{HIBP_API_BASE}/breaches", headers=headers, timeout=10)] *)
Definition requests_get : M (Z * (string + list Raw.breach)) :=
  fun st =>
    match hibp W (requests_made st) with
    | ConnectionFailed reason => (Raised (RequestException reason), count_request st)
    | Responded code body => (Returned (code, body), count_request st)
    end.

(** [response.json()] *)
Definition response_json (body : string + list Raw.breach) : M (list Raw.breach) :=
  match body with
  | inl text => raise (JSONDecodeError text)
  | inr catalogue => mret catalogue
  end.

(** [str(uuid.uuid4())] *)
Definition uuid4 : M string :=
  fun st => (Returned (uuid_source W (uuids_drawn st)), count_uuid st).

(** [datetime.now()] *)
Definition datetime_now : M datetime :=
  fun st => (Returned (clock W (clock_reads st)), count_clock st).

(** [datetime.fromisoformat(s)] *)
Definition datetime_fromisoformat (s : string) : M datetime :=
  match fromisoformat W s with
  | inl text => raise (ValueError text)
  | inr d => mret d
  end.

(** [breaches_collection.find({"$or": [{"domain": {"$regex": domain,
    "$options": "i"}}, {"emails_compromised": {"$gt": 0}}]}).limit(20)] *)
Definition breaches_find_email (domain : string) : M (list Breach.doc) :=
  fun st =>
    match regex_i W domain with
    | inl text => (Raised (OperationFailure text), st)
    | inr search =>
        (Returned
           (take 20
              (filter (fun d : Breach.doc =>
                         search (Breach.domain (Breach.fields d))
                         || (0 <? Breach.emails_compromised (Breach.fields d)))
                      (breaches_collection st))),
         st)
    end.

(** The test of the list comprehension in [get_domain_breaches]:
    [domain.lower() in breach.get('Domain', '').lower()]. *)
Definition domain_matches (domain : string) (breach : Raw.breach) : bool :=
  contains (lower domain) (lower (default "" (Raw.Domain breach))).

(** The dict [breach_data] of [get_domain_breaches], given the uuid, the
    parsed date and the clock reading that go into it. *)
Definition breach_data (breach : Raw.breach) (breach_id : string)
    (date now : datetime) : Breach.data :=
  {| Breach.id := breach_id;
     Breach.breach_name := default "" (Raw.Name breach);
     Breach.domain := default "" (Raw.Domain breach);
     Breach.emails_compromised := default 0 (Raw.PwnCount breach);
     Breach.breach_date := date;
     Breach.data_classes := default [] (Raw.DataClasses breach);
     Breach.description := default "" (Raw.Description breach);
     Breach.verified := default false (Raw.IsVerified breach);
     Breach.source := "HaveIBeenPwned";
     Breach.created_at := now |}.

(** The body of the storing loop of [get_domain_breaches]. *)
Definition store_breach (breach : Raw.breach) : M unit :=
  breach_id ← uuid4;
  date ← datetime_fromisoformat (default "2024-01-01" (Raw.BreachDate breach));
  now ← datetime_now;
  breaches_update_one_upsert (breach_data breach breach_id date now).

(** [GET /api/breaches/domain/{domain}] *)
Definition get_domain_breaches (domain : string) : M ScanResult.t :=
  try_except
    (response ← requests_get;
     if decide (response.1 = 200) then
       all_breaches ← response_json response.2;
       let domain_breaches :=
         filter (fun breach => domain_matches domain breach) all_breaches in
       for_each domain_breaches store_breach;;
       mret {| ScanResult.breaches := domain_breaches;
               ScanResult.count := Z.of_nat (length domain_breaches);
               ScanResult.message := None;
               ScanResult.error := None |}
     else
       mret {| ScanResult.breaches := [];
               ScanResult.count := 0;
               ScanResult.message := Some "API rate limit or error";
               ScanResult.error := None |})
    (fun e =>
       mret {| ScanResult.breaches := [];
               ScanResult.count := 0;
               ScanResult.message := None;
               ScanResult.error := Some (str e) |}).

(** [POST /api/domains/monitor] *)
Definition add_domain_monitor (domain_data : DomainMonitor) : M MonitorReply.t :=
  domain_id ← uuid4;
  now ← datetime_now;
  let domain_record := fun oid =>
    {| Monitor._id := oid;
       Monitor.id := domain_id;
       Monitor.domain := dm_domain domain_data;
       Monitor.email_patterns := dm_email_patterns domain_data;
       Monitor.created_at := now;
       Monitor.status := "active" |} in
  existing ← domains_find_one (dm_domain domain_data);
  match existing with
  | Some found =>
      mret {| MonitorReply.message := "Domain already being monitored";
              MonitorReply.id := Monitor._id found |}
  | None =>
      inserted_id ← domains_insert_one domain_record;
      try_except (get_domain_breaches (dm_domain domain_data);; mret tt)
                 (fun _ => mret tt);;
      mret {| MonitorReply.message := "Domain monitoring activated";
              MonitorReply.id := inserted_id |}
  end.

(** [email.split('@')[1] if '@' in email else ''] *)
Definition email_domain (email : string) : M string :=
  if contains "@" email then
    match split "@"%char email !! 1%nat with
    | Some piece => mret piece
    | None => raise (IndexError "list index out of range")
    end
  else mret "".

(** [GET /api/search/email/{email}]. The headers and the SHA-1 of the
    address are computed and never used; they are left out. *)
Definition search_email_breaches (email : string) : M EmailReply.t :=
  try_except
    (domain ← email_domain email;
     local_breaches ← breaches_find_email domain;
     mret {| EmailReply.email := Some email;
             EmailReply.breaches_found := Z.of_nat (length local_breaches);
             EmailReply.breaches := local_breaches;
             EmailReply.status := Some "scanned";
             EmailReply.error := None |})
    (fun e =>
       mret {| EmailReply.email := None;
               EmailReply.breaches_found := 0;
               EmailReply.breaches := [];
               EmailReply.status := None;
               EmailReply.error := Some (str e) |}).

(** ["high" if count > 5 else "medium"] *)
Definition severity_of (count : Z) : string :=
  if 5 <? count then "high" else "medium".

(** The alert [comprehensive_scan] builds for a domain with [count] matches. *)
Definition new_alert (alert_id domain_name : string) (count : Z) (now : datetime)
  : nat -> Alert.doc :=
  fun oid =>
    {| Alert._id := oid;
       Alert.id := alert_id;
       Alert.domain := domain_name;
       Alert.breach_name := "Multiple breaches detected";
       Alert.severity := severity_of count;
       Alert.message := "Found " +:+ pretty count +:+ " breaches for " +:+ domain_name;
       Alert.created_at := now;
       Alert.status := "active";
       Alert.dismissed_at := None |}.

(** The body of the loop of [comprehensive_scan], from the list
    [scan_results] so far to the list after this domain. Nothing after
    the first [append] can raise here, so the handler's list is the one
    the iteration started with. *)
Definition scan_one (scan_results : list ScanEntry.t) (domain : Monitor.doc)
  : M (list ScanEntry.t) :=
  let domain_name := Monitor.domain domain in
  try_except
    (result ← get_domain_breaches domain_name;
     let scan_results :=
       scan_results ++ [ {| ScanEntry.domain := domain_name;
                            ScanEntry.breaches_found := Some (ScanResult.count result);
                            ScanEntry.status := "success";
                            ScanEntry.error := None |} ] in
     (if 0 <? ScanResult.count result then
        alert_id ← uuid4;
        now ← datetime_now;
        alerts_insert_one (new_alert alert_id domain_name (ScanResult.count result) now)
      else mret tt);;
     mret scan_results)
    (fun e =>
       mret (scan_results ++ [ {| ScanEntry.domain := domain_name;
                                  ScanEntry.breaches_found := None;
                                  ScanEntry.status := "error";
                                  ScanEntry.error := Some (str e) |} ])).

(** [POST /api/scan/comprehensive] *)
Definition comprehensive_scan : M ScanReport.t :=
  try_except
    (domains ← domains_find;
     scan_results ← for_fold domains [] scan_one;
     mret {| ScanReport.message := "Comprehensive scan completed";
             ScanReport.scanned_domains := Some (Z.of_nat (length scan_results));
             ScanReport.results := Some scan_results;
             ScanReport.error := None |})
    (fun e =>
       mret {| ScanReport.message := "Scan failed";
               ScanReport.scanned_domains := None;
               ScanReport.results := None;
               ScanReport.error := Some (str e) |}).

(** [DELETE /api/alerts/{alert_id}] *)
Definition dismiss_alert (alert_id : string) : M DismissReply.t :=
  now ← datetime_now;
  modified_count ← alerts_update_one alert_id now;
  mret {| DismissReply.message := "Alert dismissed";
          DismissReply.modified := modified_count |}.

End Engine.

(* ================================================================== *)
(** ** A concrete world, to run the endpoints on examples *)

(** The value of a decimal digit. *)
Definition digit (c : ascii) : option Z :=
  let n := Z.of_N (N_of_ascii c) in
  if (48 <=? n) && (n <=? 57) then Some (n - 48) else None.

(** The number a string of decimal digits writes, most significant first. *)
Fixpoint digits (acc : Z) (s : string) : option Z :=
  match s with
  | EmptyString => Some acc
  | String c s' => d ← digit c; digits (10 * acc + d) s'
  end.

Definition is_leap (y : Z) : bool :=
  (y mod 4 =? 0) && (negb (y mod 100 =? 0) || (y mod 400 =? 0)).

Definition days_in_month (y m : Z) : Z :=
  if m =? 2 then (if is_leap y then 29 else 28)
  else if (m =? 4) || (m =? 6) || (m =? 9) || (m =? 11) then 30
  else 31.

(** Days from 1970-01-01 to the given date of the proleptic Gregorian
    calendar. *)
Definition days_from_civil (y m d : Z) : Z :=
  let y := if m <=? 2 then y - 1 else y in
  let era := y / 400 in
  let yoe := y - era * 400 in
  let mp := (m + 9) mod 12 in
  let doy := (153 * mp + 2) / 5 + d - 1 in
  let doe := yoe * 365 + yoe / 4 - yoe / 100 + doy in
  era * 146097 + doe - 719468.

(** [datetime.fromisoformat] on the date-only form [YYYY-MM-DD], the form
    of the provider's [BreachDate]: midnight of that day. This instance
    rejects every other string; a string carrying a time of day is outside
    what it is used for. *)
Definition iso_date (s : string) : string + datetime :=
  let bad := inl ("Invalid isoformat string: " +:+ s) in
  if decide (String.length s = 10%nat
             /\ String.get 4 s = Some "-"%char /\ String.get 7 s = Some "-"%char) then
    match digits 0 (String.substring 0 4 s),
          digits 0 (String.substring 5 2 s),
          digits 0 (String.substring 8 2 s) with
    | Some y, Some m, Some d =>
        if (1 <=? y) && (1 <=? m) && (m <=? 12) && (1 <=? d) && (d <=? days_in_month y m)
        then inr (days_from_civil y m d * 86400000)
        else bad
    | _, _, _ => bad
    end
  else bad.

(** Whether a pattern is made of literal characters and [.] only. *)
Fixpoint plain_pattern (p : string) : bool :=
  match p with
  | EmptyString => true
  | String c p' =>
      negb (contains (String c EmptyString) "\^$*+?()[]{}|") && plain_pattern p'
  end.

(** The pattern matches at the start of the subject, case-insensitively;
    [.] matches any character but a newline. *)
Fixpoint matches_here (p s : string) : bool :=
  match p, s with
  | EmptyString, _ => true
  | String _ _, EmptyString => false
  | String c p', String d s' =>
      (if decide (c = "."%char) then negb (bool_decide (d = "010"%char))
       else bool_decide (lower_char c = lower_char d))
      && matches_here p' s'
  end.

Fixpoint matches_somewhere (p s : string) : bool :=
  matches_here p s ||
  match s with
  | EmptyString => false
  | String _ s' => matches_somewhere p s'
  end.

(** The store's regular expressions on patterns of literal characters
    and [.]; this instance reports any other pattern as an error. *)
Definition plain_regex_i (p : string) : string + (string -> bool) :=
  if plain_pattern p then inr (matches_somewhere p)
  else inl ("Regular expression is invalid: " +:+ p).

(** The world in which the provider gives [answers] in turn and then
    times out. *)
Definition world_of (answers : list HttpOutcome) : World :=
  {| hibp := fun n => nth n answers (ConnectionFailed "Read timed out.");
     uuid_source := fun n => "uuid-" +:+ pretty (Z.of_nat n);
     clock := fun n => 1700000000000 + Z.of_nat n;
     fromisoformat := iso_date;
     regex_i := plain_regex_i |}.

(** A store with the given collections and nothing consumed yet. *)
Definition store (bs : list Breach.doc) (ds : list Monitor.doc) (als : list Alert.doc)
  : State :=
  {| breaches_collection := bs;
     domains_collection := ds;
     alerts_collection := als;
     oids_issued := 0;
     requests_made := 0;
     uuids_drawn := 0;
     clock_reads := 0 |}.

(** A watchlist entry for a domain. *)
Definition watch (oid : nat) (d : string) : Monitor.doc :=
  Monitor.Doc oid ("w-" +:+ d) d [] 1690000000000 "active".

(** A catalogue entry with a name, a domain and a breach date. *)
Definition entry (name domain date : string) : Raw.breach :=
  Raw.Breach (Some name) (Some domain) (Some 1) (Some date) None None None.

(* ================================================================== *)
(** ** Vocabulary of the statements

    Names for what the endpoints compute along the way. They restate
    expressions of the code so that the properties below can speak of
    them. *)

(** The three dicts [get_domain_breaches] returns. *)
Definition scan_ok (matches : list Raw.breach) : ScanResult.t :=
  {| ScanResult.breaches := matches;
     ScanResult.count := Z.of_nat (length matches);
     ScanResult.message := None;
     ScanResult.error := None |}.

Definition scan_refused : ScanResult.t :=
  {| ScanResult.breaches := [];
     ScanResult.count := 0;
     ScanResult.message := Some "API rate limit or error";
     ScanResult.error := None |}.

Definition scan_error (text : string) : ScanResult.t :=
  {| ScanResult.breaches := [];
     ScanResult.count := 0;
     ScanResult.message := None;
     ScanResult.error := Some text |}.

(** The catalogue entries the filter of [get_domain_breaches] keeps. *)
Definition matching (domain : string) (catalogue : list Raw.breach) : list Raw.breach :=
  filter (fun breach => domain_matches domain breach) catalogue.

(** The breach names a collection holds, in order. *)
Definition names (coll : list Breach.doc) : list string :=
  (fun d => Breach.breach_name (Breach.fields d)) <$> coll.

(** The repository invariant: no two records share a breach name. *)
Definition one_per_name (coll : list Breach.doc) : Prop := NoDup (names coll).

(** The components an ingestion pass leaves alone: the watchlist and the
    alert ledger. *)
Definition same_lists (st st' : State) : Prop :=
  domains_collection st' = domains_collection st /\
  alerts_collection st' = alerts_collection st /\
  requests_made st' = requests_made st.

(** The entry [scan_one] appends for a domain whose scan returned. *)
Definition success_entry (domain_name : string) (count : Z) : ScanEntry.t :=
  {| ScanEntry.domain := domain_name;
     ScanEntry.breaches_found := Some count;
     ScanEntry.status := "success";
     ScanEntry.error := None |}.

(** The alert an entry of the report calls for: its domain and severity,
    when the count is positive. *)
Definition alert_due (e : ScanEntry.t) : option (string * string) :=
  match ScanEntry.breaches_found e with
  | Some n => if 0 <? n then Some (ScanEntry.domain e, severity_of n) else None
  | None => None
  end.

(** A provider call that fails: the request raises, the status is not
    200, or the body is not JSON. *)
Definition provider_failed (o : HttpOutcome) : Prop :=
  match o with
  | ConnectionFailed _ => True
  | Responded code body => code <> 200 \/ exists text, body = inl text
  end.

(** The domain [search_email_breaches] searches for: the text between
    the first and the second '@', empty when the address has none. *)
Definition derived_domain (email : string) : string :=
  if contains "@" email then default EmptyString (split "@"%char email !! 1%nat)
  else EmptyString.

(** The [$or] of the query of [search_email_breaches]. *)
Definition email_query (search : string -> bool) (d : Breach.doc) : bool :=
  search (Breach.domain (Breach.fields d))
  || (0 <? Breach.emails_compromised (Breach.fields d)).

Section Descriptions.

Variable W : World.

(** The date [store_breach] gives an entry, when it parses. *)
Definition parsed_date (b : Raw.breach) : string + datetime :=
  fromisoformat W (default "2024-01-01" (Raw.BreachDate b)).

(** The records the storing loop writes for [bs], drawing uuids from the
    [u]-th and clock readings from the [c]-th on; [None] when the date of
    some entry does not parse. *)
Fixpoint normalized (bs : list Raw.breach) (u c : nat) : option (list Breach.data) :=
  match bs with
  | [] => Some []
  | b :: bs' =>
      match parsed_date b with
      | inr d =>
          cons (breach_data b (uuid_source W u) d (clock W c))
            <$> normalized bs' (S u) (S c)
      | inl _ => None
      end
  end.

(** What the storing loop makes of one catalogue entry: the defaults of
    the [breach.get] calls, and the date as parsed. *)
Definition normal_form (b : Raw.breach) (r : Breach.data) : Prop :=
  Breach.breach_name r = default EmptyString (Raw.Name b) /\
  Breach.domain r = default EmptyString (Raw.Domain b) /\
  Breach.emails_compromised r = default 0 (Raw.PwnCount b) /\
  parsed_date b = inr (Breach.breach_date r) /\
  Breach.data_classes r = default [] (Raw.DataClasses b) /\
  Breach.description r = default EmptyString (Raw.Description b) /\
  Breach.verified r = default false (Raw.IsVerified b) /\
  Breach.source r = "HaveIBeenPwned".

(** The alert the loop body inserts in state [st] for [count] matches:
    none when the count is 0. *)
Definition alert_for (domain_name : string) (count : Z) (st : State) : list Alert.doc :=
  if 0 <? count then
    [new_alert (uuid_source W (uuids_drawn st)) domain_name count
       (clock W (clock_reads st)) (oids_issued st)]
  else [].

(** The state the loop body leaves after the scan left [st]. *)
Definition alerted (domain_name : string) (count : Z) (st : State) : State :=
  if 0 <? count then
    issue_oid (set_alerts (alerts_collection st ++ alert_for domain_name count st)
                 (count_clock (count_uuid st)))
  else st.

End Descriptions.

(* ================================================================== *)
(** ** The read-only endpoints *)

(** What [get_dashboard_stats] returns. *)
Module Dashboard.
Record t := Make {
  total_breaches : Z;
  monitored_domains : Z;
  active_alerts : Z;
  recent_breaches : list Breach.doc;
  system_status : string
}.
End Dashboard.

(** [breaches_collection.count_documents({})] *)
Definition breaches_count_documents : M Z :=
  fun st => (Returned (Z.of_nat (length (breaches_collection st))), st).

(** [domains_collection.count_documents({})] *)
Definition domains_count_documents : M Z :=
  fun st => (Returned (Z.of_nat (length (domains_collection st))), st).

(** [alerts_collection.count_documents({"status": "active"})] *)
Definition alerts_count_active : M Z :=
  fun st =>
    (Returned
       (Z.of_nat (length (filter (fun al => Alert.status al = "active")
                            (alerts_collection st)))),
     st).

(** [GET /api/domains/monitored] *)
Definition get_monitored_domains : M (list Monitor.doc) :=
  domains ← domains_find;
  mret domains.

Section Listings.

(** [cursor.sort(field, -1)]: the store's descending sort on a date
    field. The order it gives documents with equal dates is the store's
    own, so the sort is taken as given. *)
Variable sort_desc : forall A : Type, (A -> datetime) -> list A -> list A.

(** [breaches_collection.find().sort("breach_date", -1).limit(n)] *)
Definition breaches_find_recent (n : nat) : M (list Breach.doc) :=
  fun st =>
    (Returned
       (take n (sort_desc Breach.doc (fun d => Breach.breach_date (Breach.fields d))
                  (breaches_collection st))),
     st).

(** [alerts_collection.find().sort("created_at", -1).limit(n)] *)
Definition alerts_find_recent (n : nat) : M (list Alert.doc) :=
  fun st =>
    (Returned (take n (sort_desc Alert.doc Alert.created_at (alerts_collection st))),
     st).

(** [GET /api/dashboard/stats] *)
Definition get_dashboard_stats : M Dashboard.t :=
  total_breaches ← breaches_count_documents;
  monitored_domains ← domains_count_documents;
  active_alerts ← alerts_count_active;
  recent_breaches ← breaches_find_recent 5;
  mret {| Dashboard.total_breaches := total_breaches;
          Dashboard.monitored_domains := monitored_domains;
          Dashboard.active_alerts := active_alerts;
          Dashboard.recent_breaches := recent_breaches;
          Dashboard.system_status := "operational" |}.

(** [GET /api/alerts] *)
Definition get_alerts : M (list Alert.doc) :=
  alerts ← alerts_find_recent 50;
  mret alerts.

End Listings.

(** What the store's descending sort promises: the same documents, the
    later date first. *)
Definition sorts_descending
    (sort_desc : forall A : Type, (A -> datetime) -> list A -> list A) : Prop :=
  forall (A : Type) (key : A -> datetime) (l : list A),
    sort_desc A key l ≡ₚ l /\
    StronglySorted (fun x y => key y <= key x) (sort_desc A key l).

(** A descending sort to run the listings with. *)
Definition merge_sort_desc (A : Type) (key : A -> datetime) (l : list A) : list A :=
  @merge_sort A (fun x y => key y <= key x)
              (fun x y => Z_le_dec (key y) (key x)) l.

(** The watched domains, in watchlist order. *)
Definition watched (ds : list Monitor.doc) : list string := Monitor.domain <$> ds.

(** The watchlist invariant: no domain is watched twice. *)
Definition one_per_domain (ds : list Monitor.doc) : Prop := NoDup (watched ds).

(** The number of alerts with status "active". *)
Definition active_count (als : list Alert.doc) : Z :=
  Z.of_nat (length (filter (fun al => Alert.status al = "active") als)).

(* ================================================================== *)
(** ** Sequences of requests *)

(** A request to one of the endpoints, with its argument. *)
Inductive Call :=
  | GetDomainBreaches (domain : string)
  | AddDomainMonitor (domain_data : DomainMonitor)
  | GetMonitoredDomains
  | SearchEmailBreaches (email : string)
  | GetAlerts
  | ComprehensiveScan
  | DismissAlert (alert_id : string)
  | GetDashboardStats.

(** The state an endpoint leaves; its reply goes to the client. *)
Definition serve (W : World)
    (sort_desc : forall A : Type, (A -> datetime) -> list A -> list A)
    (c : Call) (st : State) : State :=
  match c with
  | GetDomainBreaches domain => (get_domain_breaches W domain st).2
  | AddDomainMonitor domain_data => (add_domain_monitor W domain_data st).2
  | GetMonitoredDomains => (get_monitored_domains st).2
  | SearchEmailBreaches email => (search_email_breaches W email st).2
  | GetAlerts => (get_alerts sort_desc st).2
  | ComprehensiveScan => (comprehensive_scan W st).2
  | DismissAlert alert_id => (dismiss_alert W alert_id st).2
  | GetDashboardStats => (get_dashboard_stats sort_desc st).2
  end.

(** The state after a sequence of requests, served one after another. *)
Definition serve_all (W : World)
    (sort_desc : forall A : Type, (A -> datetime) -> list A -> list A)
    (calls : list Call) (st : State) : State :=
  foldl (fun st c => serve W sort_desc c st) st calls.

(** How the three collections can change: the repository by upserts,
    the watchlist by adding a domain it does not hold, the ledger by
    adding an alert or dismissing one in place. *)
Inductive repository_evolves : list Breach.doc -> list Breach.doc -> Prop :=
  | repository_same coll : repository_evolves coll coll
  | repository_upsert coll coll' oid data :
      repository_evolves coll coll' ->
      repository_evolves coll (upsert (coll', oid) data).1.

Inductive watchlist_evolves : list Monitor.doc -> list Monitor.doc -> Prop :=
  | watchlist_same ds : watchlist_evolves ds ds
  | watchlist_add ds ds' m :
      watchlist_evolves ds ds' ->
      Monitor.domain m ∉ watched ds' ->
      watchlist_evolves ds (ds' ++ [m]).

Inductive ledger_evolves : list Alert.doc -> list Alert.doc -> Prop :=
  | ledger_same als : ledger_evolves als als
  | ledger_add als als' al :
      ledger_evolves als als' ->
      ledger_evolves als (als' ++ [al])
  | ledger_dismiss als als' i al now :
      ledger_evolves als als' ->
      als' !! i = Some al ->
      ledger_evolves als (<[i := set_dismissed now al]> als').

(** An alert without its status and dismissal time: what
    [dismiss_alert] leaves alone. *)
Definition alert_identity (al : Alert.doc)
  : nat * string * string * string * string * string * datetime :=
  (Alert._id al, Alert.id al, Alert.domain al, Alert.breach_name al,
   Alert.severity al, Alert.message al, Alert.created_at al).

(** The three relations together, on states. *)
Definition evolves (st st' : State) : Prop :=
  repository_evolves (breaches_collection st) (breaches_collection st') /\
  watchlist_evolves (domains_collection st) (domains_collection st') /\
  ledger_evolves (alerts_collection st) (alerts_collection st').

(** Whether an entry of the report counts at least one breach. *)
Definition has_breaches (e : ScanEntry.t) : bool :=
  match ScanEntry.breaches_found e with
  | Some n => 0 <? n
  | None => false
  end.

(* ================================================================== *)
(** ** Sample data for the examples *)

Definition adobe_catalogue : list Raw.breach :=
  [ entry "Adobe" "ADOBE.COM.AU" "2013-10-04";
    entry "AdobeStock" "www.adobe.com" "2019-10-25";
    entry "Dropbox" "dropbox.com" "2012-07-01" ].

(** A catalogue entry that has a name and a domain and nothing else. *)
Definition bare_entry (name domain : string) : Raw.breach :=
  Raw.Breach (Some name) (Some domain) None None None None None.

Definition undated_catalogue : list Raw.breach :=
  [ bare_entry "Forum2019" "forum.example.org";
    entry "Shop2021" "shop.example.org" "2021-03-15" ].

(** A catalogue whose first entry carries a date in another format. *)
Definition misdated_catalogue : list Raw.breach :=
  [ entry "A" "x.com" "31/08/2016"; entry "B" "x.com" "2016-08-31" ].

Definition two_match_catalogue : list Raw.breach :=
  [ entry "A" "x.com" "2016-08-31"; entry "B" "y.x.com" "2016-08-31" ].

(** The provider answers the first and third request and drops the second. *)
Definition flaky_world : World :=
  world_of [ Responded 200 (inr two_match_catalogue);
             ConnectionFailed "Read timed out.";
             Responded 200 (inr two_match_catalogue) ].

Definition three_domains : State :=
  store [] [watch 0 "x.com"; watch 1 "b.org"; watch 2 "y.x.com"] [].

Definition adobe_first : Breach.data :=
  Breach.Data "uuid-a" "Adobe" "adobe.com" 152445165 1380844800000
              ["Email addresses"] "first ingestion" true "HaveIBeenPwned" 1700000000000.

Definition adobe_second : Breach.data :=
  Breach.Data "uuid-b" "Adobe" "adobe.com.au" 153000000 1380931200000
              ["Email addresses"; "Passwords"] "second ingestion" false
              "HaveIBeenPwned" 1700000000500.

Definition linkedin_doc : Breach.doc :=
  Breach.Doc 0
    (Breach.Data "uuid-l" "LinkedIn" "linkedin.com" 164611595 1336176000000
                 ["Email addresses"; "Passwords"] "" true "HaveIBeenPwned" 1700000000000).

Definition dismissed_alert : Alert.doc :=
  Alert.Doc 0 "alert-1" "x.com" "Multiple breaches detected" "medium"
            "Found 2 breaches for x.com" 1690000000000 "dismissed" (Some 1690000000500).

(** A sequence of requests: a registration, a batch scan, a lookup, a
    dismissal and two listings. *)
Definition busy_day : list Call :=
  [ AddDomainMonitor {| dm_domain := "x.com"; dm_email_patterns := [] |};
    ComprehensiveScan;
    GetDomainBreaches "y.x.com";
    DismissAlert "alert-1";
    GetAlerts;
    GetDashboardStats ].

(** A world whose provider always sends the same two-entry catalogue. *)
Definition steady_world : World :=
  world_of [ Responded 200 (inr two_match_catalogue);
             Responded 200 (inr two_match_catalogue);
             Responded 200 (inr two_match_catalogue) ].

Definition active_alert : Alert.doc :=
  Alert.Doc 1 "alert-2" "y.x.com" "Multiple breaches detected" "high"
            "Found 7 breaches for y.x.com" 1695000000000 "active" None.

(* ================================================================== *)
(** ** Text: what the string tests decide *)

Lemma append_cons (c : ascii) (a b : string) :
  String c a +:+ b = String c (a +:+ b).
Proof. reflexivity. Qed.

Lemma append_nil (b : string) : EmptyString +:+ b = b.
Proof. reflexivity. Qed.

Lemma prefix_spec (a s : string) :
  String.prefix a s = true <-> exists post, s = a +:+ post.
Proof.
  revert s. induction a as [|c a IH]; intros s.
  - split; [exists s; reflexivity | destruct s; reflexivity].
  - destruct s as [|d s]; simpl.
    + split; [discriminate | intros [post H]; discriminate].
    + destruct (Ascii.ascii_dec c d) as [->|Hne].
      * rewrite IH. split; intros [post H]; exists post;
          rewrite append_cons in *; congruence.
      * split; [discriminate | intros [post H]; rewrite append_cons in H; congruence].
Qed.

Lemma contains_nil (sub : string) :
  contains sub EmptyString = String.prefix sub EmptyString || false.
Proof. reflexivity. Qed.

Lemma contains_cons (sub : string) (d : ascii) (s : string) :
  contains sub (String d s) = String.prefix sub (String d s) || contains sub s.
Proof. reflexivity. Qed.

Lemma contains_spec (sub s : string) :
  contains sub s = true <-> substring_of sub s.
Proof.
  unfold substring_of. induction s as [|d s IH];
    [rewrite contains_nil | rewrite contains_cons].
  - rewrite orb_false_r, prefix_spec. split.
    + intros [post H]. exists EmptyString, post. exact H.
    + intros [pre [post H]]. destruct pre; [eauto | discriminate].
  - rewrite orb_true_iff, IH, prefix_spec. split.
    + intros [[post H] | [pre [post H]]].
      * exists EmptyString, post. exact H.
      * exists (String d pre), post. rewrite append_cons. congruence.
    + intros [pre [post H]]. destruct pre as [|e pre].
      * left. eauto.
      * right. exists pre, post. rewrite append_cons in H. congruence.
Qed.

Lemma contains_empty (s : string) : contains EmptyString s = true.
Proof. destruct s; reflexivity. Qed.

(** [split] on a string without the separator. *)
Lemma split_no_sep (sep : ascii) (s : string) :
  contains (String sep EmptyString) s = false -> split sep s = [s].
Proof.
  induction s as [|c s IH]; simpl; [reflexivity|].
  destruct (Ascii.ascii_dec sep c) as [->|Hne].
  - destruct s; discriminate.
  - intros H. rewrite orb_false_l in H.
    destruct (decide (c = sep)) as [->|_]; [congruence|].
    rewrite IH by exact H. reflexivity.
Qed.

(** [split] cuts at the first separator. *)
Lemma split_first (sep : ascii) (a b : string) :
  contains (String sep EmptyString) a = false ->
  split sep (a +:+ String sep b) = a :: split sep b.
Proof.
  induction a as [|c a IH].
  - intros _. rewrite append_nil. simpl.
    destruct (decide (sep = sep)); [reflexivity | congruence].
  - rewrite append_cons. simpl. destruct (Ascii.ascii_dec sep c) as [->|Hne].
    + destruct a; discriminate.
    + intros H. rewrite orb_false_l in H.
      destruct (decide (c = sep)) as [->|_]; [congruence|].
      rewrite IH by exact H. reflexivity.
Qed.

Lemma split_nonempty (sep : ascii) (s : string) : split sep s <> [].
Proof.
  destruct s as [|c s]; simpl; [discriminate|].
  destruct (decide (c = sep)); [discriminate|].
  destruct (split sep s); discriminate.
Qed.

(** A string that holds the separator splits into at least two pieces. *)
Lemma split_has_second (sep : ascii) (s : string) :
  contains (String sep EmptyString) s = true ->
  exists a b rest, split sep s = a :: b :: rest.
Proof.
  induction s as [|c s IH]; simpl; [discriminate|].
  destruct (decide (c = sep)) as [->|Hne].
  - intros _. destruct (split sep s) as [|b rest] eqn:E.
    + exfalso. exact (split_nonempty _ _ E).
    + eauto.
  - destruct (Ascii.ascii_dec sep c) as [->|_]; [congruence|].
    rewrite orb_false_l. intros H. destruct (IH H) as (a & b & rest & ->). eauto.
Qed.

(* ================================================================== *)
(** ** Running the monad *)

Lemma run_ret {A} (a : A) (st : State) : (mret a : M A) st = (Returned a, st).
Proof. reflexivity. Qed.

Lemma run_bind {A B} (m : M A) (k : A -> M B) (st : State) :
  (m ≫= k) st =
  match m st with
  | (Returned a, st') => k a st'
  | (Raised e, st') => (Raised e, st')
  end.
Proof. reflexivity. Qed.

Lemma run_try {A} (body : M A) (handler : exn -> M A) (st : State) :
  try_except body handler st =
  match body st with
  | (Returned a, st') => (Returned a, st')
  | (Raised e, st') => handler e st'
  end.
Proof. reflexivity. Qed.

Lemma same_lists_refl st : same_lists st st.
Proof. repeat split. Qed.

Lemma same_lists_trans st1 st2 st3 :
  same_lists st1 st2 -> same_lists st2 st3 -> same_lists st1 st3.
Proof. unfold same_lists. intuition congruence. Qed.

(* ================================================================== *)
(** ** The storing loop of [get_domain_breaches] *)

Section Ingestion.

Variable W : World.

Lemma store_breach_parsed b d st :
  parsed_date W b = inr d ->
  store_breach W b st =
  (Returned tt,
   let s := upsert (breaches_collection st, oids_issued st)
              (breach_data b (uuid_source W (uuids_drawn st)) d
                 (clock W (clock_reads st))) in
   set_oids s.2 (set_breaches s.1 (count_clock (count_uuid st)))).
Proof.
  unfold parsed_date. intros H. unfold store_breach.
  rewrite run_bind. unfold uuid4 at 1. cbv beta iota.
  rewrite run_bind. unfold datetime_fromisoformat. rewrite H.
  rewrite run_ret. rewrite run_bind. reflexivity.
Qed.

Lemma store_breach_unparsed b t st :
  parsed_date W b = inl t ->
  store_breach W b st = (Raised (ValueError t), count_uuid st).
Proof.
  unfold parsed_date. intros H. unfold store_breach.
  rewrite run_bind. unfold uuid4 at 1. cbv beta iota.
  rewrite run_bind. unfold datetime_fromisoformat. rewrite H. reflexivity.
Qed.

Lemma store_breach_same_lists b st :
  same_lists st (store_breach W b st).2.
Proof.
  destruct (parsed_date W b) as [t|d] eqn:E.
  - rewrite (store_breach_unparsed _ _ _ E). repeat split.
  - rewrite (store_breach_parsed _ _ _ E). repeat split.
Qed.

Lemma store_all_same_lists bs st :
  same_lists st (for_each bs (store_breach W) st).2.
Proof.
  revert st. induction bs as [|b bs IH]; intros st; simpl.
  - apply same_lists_refl.
  - rewrite run_bind. pose proof (store_breach_same_lists b st) as Hb.
    destruct (store_breach W b st) as [[[]|e] st1]; simpl in *.
    + eapply same_lists_trans; [exact Hb | apply IH].
    + exact Hb.
Qed.

(** When every date parses the loop runs to its end, and what it leaves
    in the repository is the fold of [upsert] over the records. *)
Lemma store_all_parsed bs : forall st recs,
  normalized W bs (uuids_drawn st) (clock_reads st) = Some recs ->
  exists st',
    for_each bs (store_breach W) st = (Returned tt, st') /\
    (breaches_collection st', oids_issued st')
      = foldl upsert (breaches_collection st, oids_issued st) recs /\
    uuids_drawn st' = (uuids_drawn st + length bs)%nat /\
    clock_reads st' = (clock_reads st + length bs)%nat.
Proof.
  induction bs as [|b bs IH]; intros st recs H; simpl in H.
  - injection H as <-. exists st. simpl. rewrite !Nat.add_0_r. auto.
  - destruct (parsed_date W b) as [t|d] eqn:E; [discriminate|].
    destruct (normalized W bs _ _) as [recs'|] eqn:E'; [|discriminate].
    injection H as <-.
    simpl. rewrite run_bind, (store_breach_parsed _ _ _ E). cbv zeta.
    match goal with
    | |- context [for_each bs _ ?s] =>
        destruct (IH s recs') as (st' & Hrun & Hfold & Hu & Hc); [exact E'|]
    end.
    exists st'. split; [exact Hrun|]. split; [|split].
    + rewrite Hfold. simpl.
      destruct (upsert _ _) as [c o]. reflexivity.
    + rewrite Hu. simpl. lia.
    + rewrite Hc. simpl. lia.
Qed.

(** An entry whose date does not parse stops the loop with the parser's
    error. *)
Lemma store_all_unparsed bs : forall st u c,
  normalized W bs u c = None ->
  exists t st', for_each bs (store_breach W) st = (Raised (ValueError t), st').
Proof.
  induction bs as [|b bs IH]; intros st u c H; simpl in H; [discriminate|].
  simpl. rewrite run_bind. destruct (parsed_date W b) as [t|d] eqn:E.
  - rewrite (store_breach_unparsed _ _ _ E). eauto.
  - rewrite (store_breach_parsed _ _ _ E). cbv zeta.
    destruct (normalized W bs _ _) eqn:E'; [discriminate|]. eapply IH, E'.
Qed.

Lemma normalized_length bs : forall u c recs,
  normalized W bs u c = Some recs -> length recs = length bs.
Proof.
  induction bs as [|b bs IH]; intros u c recs H; simpl in H.
  - injection H as <-. reflexivity.
  - destruct (parsed_date W b); [discriminate|].
    destruct (normalized W bs _ _) eqn:E; [|discriminate].
    injection H as <-. simpl. f_equal. eapply IH, E.
Qed.

(** Whether the dates parse does not depend on the counters. *)
Lemma normalized_is_Some bs u c :
  is_Some (normalized W bs u c) <-> Forall (fun b => exists d, parsed_date W b = inr d) bs.
Proof.
  revert u c. induction bs as [|b bs IH]; intros u c; simpl.
  - split; [constructor | eauto].
  - destruct (parsed_date W b) as [t|d] eqn:E.
    + split; [intros [? ?]; discriminate|].
      intros H. inversion H as [|? ? [d Hd] _]; subst. congruence.
    + rewrite fmap_is_Some, IH. split.
      * intros H. constructor; eauto.
      * intros H. inversion H; assumption.
Qed.

End Ingestion.

(* ================================================================== *)
(** ** [get_domain_breaches], path by path *)

Section Scan.

Variable W : World.

Lemma get_domain_breaches_run domain st :
  get_domain_breaches W domain st =
  match hibp W (requests_made st) with
  | ConnectionFailed reason => (Returned (scan_error reason), count_request st)
  | Responded code body =>
      if decide (code = 200) then
        match body with
        | inl text => (Returned (scan_error text), count_request st)
        | inr catalogue =>
            match for_each (matching domain catalogue) (store_breach W)
                    (count_request st) with
            | (Returned _, st') => (Returned (scan_ok (matching domain catalogue)), st')
            | (Raised e, st') => (Returned (scan_error (str e)), st')
            end
        end
      else (Returned scan_refused, count_request st)
  end.
Proof.
  unfold get_domain_breaches. rewrite run_try, run_bind. unfold requests_get.
  destruct (hibp W (requests_made st)) as [reason|code body]; [reflexivity|].
  cbv beta iota. cbn [fst snd].
  destruct (decide (code = 200)) as [->|Hne]; [|reflexivity].
  rewrite run_bind. destruct body as [text|catalogue]; [reflexivity|].
  unfold response_json. rewrite run_ret, run_bind. fold (matching domain catalogue).
  destruct (for_each _ _ _) as [[[]|e] st']; reflexivity.
Qed.

(** [get_domain_breaches] returns, whatever the provider does, and an
    ingestion pass costs one request and touches neither the watchlist
    nor the ledger. *)
Lemma get_domain_breaches_returns domain st :
  exists r st',
    get_domain_breaches W domain st = (Returned r, st') /\
    domains_collection st' = domains_collection st /\
    alerts_collection st' = alerts_collection st /\
    requests_made st' = S (requests_made st).
Proof.
  rewrite get_domain_breaches_run.
  destruct (hibp W (requests_made st)) as [reason|code body].
  - eexists _, _. repeat split.
  - destruct (decide (code = 200)) as [->|Hne]; [|eexists _, _; repeat split].
    destruct body as [text|catalogue]; [eexists _, _; repeat split|].
    pose proof (store_all_same_lists W (matching domain catalogue) (count_request st))
      as (Hd & Ha & Hr).
    destruct (for_each _ _ _) as [[[]|err] st']; simpl in *;
      eexists _, _; (split; [reflexivity|]); auto.
Qed.

Lemma get_domain_breaches_connection_failed domain st reason :
  hibp W (requests_made st) = ConnectionFailed reason ->
  get_domain_breaches W domain st = (Returned (scan_error reason), count_request st).
Proof. intros H. rewrite get_domain_breaches_run, H. reflexivity. Qed.

Lemma get_domain_breaches_not_200 domain st code body :
  hibp W (requests_made st) = Responded code body -> code <> 200 ->
  get_domain_breaches W domain st = (Returned scan_refused, count_request st).
Proof.
  intros H Hne. rewrite get_domain_breaches_run, H.
  destruct (decide (code = 200)); [contradiction | reflexivity].
Qed.

Lemma get_domain_breaches_bad_json domain st text :
  hibp W (requests_made st) = Responded 200 (inl text) ->
  get_domain_breaches W domain st = (Returned (scan_error text), count_request st).
Proof. intros H. rewrite get_domain_breaches_run, H. reflexivity. Qed.

(** The success path: the catalogue arrived and every matched date parses. *)
Lemma get_domain_breaches_stored domain st catalogue recs :
  hibp W (requests_made st) = Responded 200 (inr catalogue) ->
  normalized W (matching domain catalogue) (uuids_drawn st) (clock_reads st) = Some recs ->
  exists st',
    get_domain_breaches W domain st
      = (Returned (scan_ok (matching domain catalogue)), st') /\
    (breaches_collection st', oids_issued st')
      = foldl upsert (breaches_collection st, oids_issued st) recs /\
    domains_collection st' = domains_collection st /\
    alerts_collection st' = alerts_collection st /\
    requests_made st' = S (requests_made st) /\
    uuids_drawn st' = (uuids_drawn st + length (matching domain catalogue))%nat /\
    clock_reads st' = (clock_reads st + length (matching domain catalogue))%nat.
Proof.
  intros H Hn. rewrite get_domain_breaches_run, H. simpl.
  destruct (store_all_parsed W (matching domain catalogue) (count_request st) recs Hn)
    as (st' & Hrun & Hfold & Hu & Hc).
  pose proof (store_all_same_lists W (matching domain catalogue) (count_request st))
    as (Hd & Ha & Hr).
  rewrite Hrun in *. simpl in *. exists st'. auto 10.
Qed.

(** A matched entry whose date does not parse turns the whole scan into
    the error result. *)
Lemma get_domain_breaches_unparsed domain st catalogue :
  hibp W (requests_made st) = Responded 200 (inr catalogue) ->
  normalized W (matching domain catalogue) (uuids_drawn st) (clock_reads st) = None ->
  exists text st',
    get_domain_breaches W domain st = (Returned (scan_error text), st').
Proof.
  intros H Hn. rewrite get_domain_breaches_run, H. simpl.
  destruct (store_all_unparsed W _ (count_request st) _ _ Hn) as (t & st' & ->).
  eauto.
Qed.

End Scan.

(* ================================================================== *)
(** ** The Breach Repository: one record per breach name *)

Lemma filter_named_none n (l : list Breach.doc) :
  n ∉ names l -> filter (named n) l = [].
Proof.
  induction l as [|y l IH]; [reflexivity|].
  unfold names. rewrite fmap_cons, not_elem_of_cons. intros [Hy Hl].
  rewrite filter_cons_False; [apply IH, Hl|].
  unfold named. congruence.
Qed.

(** Under the invariant, a record found under a name is the only one the
    name selects. *)
Lemma filter_named_unique n (l : list Breach.doc) : forall i x,
  one_per_name l -> l !! i = Some x -> named n x -> filter (named n) l = [x].
Proof.
  unfold one_per_name.
  induction l as [|y l IH]; intros i x Hnd Hi Hx; [discriminate|].
  unfold names in Hnd. rewrite fmap_cons in Hnd.
  apply NoDup_cons in Hnd as [Hy Hnd].
  destruct i as [|i]; simpl in Hi.
  - injection Hi as ->. rewrite filter_cons_True by exact Hx.
    rewrite filter_named_none; [reflexivity|].
    unfold named in Hx. rewrite <- Hx. exact Hy.
  - rewrite filter_cons_False; [eapply IH; eauto|].
    intros Hyn. apply Hy. unfold named in *. rewrite Hyn, <- Hx.
    apply list_elem_of_fmap. exists x. split; [reflexivity|].
    apply list_elem_of_lookup. eauto.
Qed.

(** What one [upsert] leaves: the names it found, or one more. *)
Lemma upsert_names s data :
  names (upsert s data).1 =
  match list_find (named (Breach.breach_name data)) s.1 with
  | Some _ => names s.1
  | None => names s.1 ++ [Breach.breach_name data]
  end.
Proof.
  unfold upsert. destruct (list_find _ _) as [[i d]|] eqn:E; simpl.
  - apply list_find_Some in E as (Hi & Hn & _).
    unfold names. rewrite list_fmap_insert. simpl.
    apply list_insert_id. rewrite list_lookup_fmap, Hi. simpl. f_equal. exact Hn.
  - unfold names. rewrite fmap_app. reflexivity.
Qed.

Lemma upsert_one_per_name s data :
  one_per_name s.1 -> one_per_name (upsert s data).1.
Proof.
  unfold one_per_name. intros Hnd. rewrite upsert_names.
  destruct (list_find _ _) as [[i d]|] eqn:E; [exact Hnd|].
  apply NoDup_app. split; [exact Hnd|]. split; [|apply NoDup_singleton].
  intros x Hx Hin. apply list_elem_of_singleton in Hin as ->.
  apply list_find_None in E. rewrite Forall_forall in E.
  apply list_elem_of_fmap in Hx as (d & Hd & Hin).
  apply (E d Hin). unfold named. congruence.
Qed.

Lemma upsert_all_one_per_name recs : forall s,
  one_per_name s.1 -> one_per_name (foldl upsert s recs).1.
Proof.
  induction recs as [|r recs IH]; intros s H; simpl; [exact H|].
  apply IH, upsert_one_per_name, H.
Qed.

(** After an [upsert] the record under the name exists and carries the
    data just written. *)
Lemma upsert_stored s data :
  exists i d,
    (upsert s data).1 !! i = Some d /\
    named (Breach.breach_name data) d /\ Breach.fields d = data.
Proof.
  unfold upsert. destruct (list_find _ _) as [[i d]|] eqn:E; simpl.
  - apply list_find_Some in E as (Hi & Hn & _).
    exists i, (Breach.Doc (Breach._id d) data). split; [|split; reflexivity].
    apply list_lookup_insert_eq. eapply lookup_lt_Some, Hi.
  - exists (length s.1), (Breach.Doc s.2 data). split; [|split; reflexivity].
    rewrite lookup_app_r by lia. rewrite Nat.sub_diag. reflexivity.
Qed.

Lemma upsert_selects s data :
  one_per_name s.1 ->
  exists d,
    filter (named (Breach.breach_name data)) (upsert s data).1 = [d] /\
    Breach.fields d = data.
Proof.
  intros Hnd. destruct (upsert_stored s data) as (i & d & Hi & Hn & Hf).
  exists d. split; [|exact Hf].
  eapply filter_named_unique; eauto. apply upsert_one_per_name, Hnd.
Qed.

(** A name once stored stays stored: the repository never deletes. *)
Lemma upsert_keeps_names s data n :
  n ∈ names s.1 -> n ∈ names (upsert s data).1.
Proof.
  rewrite upsert_names. destruct (list_find _ _); [auto|].
  intros H. apply elem_of_app. left. exact H.
Qed.

Lemma upsert_all_keeps_names recs : forall s n,
  n ∈ names s.1 -> n ∈ names (foldl upsert s recs).1.
Proof.
  induction recs as [|r recs IH]; intros s n H; simpl; [exact H|].
  apply IH, upsert_keeps_names, H.
Qed.

Lemma upsert_adds_name s data :
  Breach.breach_name data ∈ names (upsert s data).1.
Proof.
  destruct (upsert_stored s data) as (i & d & Hi & Hn & _).
  apply list_elem_of_fmap. exists d. split; [symmetry; exact Hn|].
  apply list_elem_of_lookup. eauto.
Qed.

(** Every record of a run of upserts leaves its name in the repository. *)
Lemma upsert_all_names recs : forall s r,
  r ∈ recs -> Breach.breach_name r ∈ names (foldl upsert s recs).1.
Proof.
  induction recs as [|r0 recs IH]; intros s r H; [inversion H|].
  apply elem_of_cons in H as [->|H]; simpl.
  - apply upsert_all_keeps_names, upsert_adds_name.
  - apply IH, H.
Qed.

(* ================================================================== *)
(** ** Properties of [get_domain_breaches] *)

(** The filter test is the case-insensitive substring test. *)
Lemma domain_matches_spec (domain : string) (b : Raw.breach) :
  domain_matches domain b = true <->
  substring_of (lower domain) (lower (default EmptyString (Raw.Domain b))).
Proof. unfold domain_matches. apply contains_spec. Qed.

Lemma elem_of_matching (domain : string) (catalogue : list Raw.breach) (b : Raw.breach) :
  b ∈ matching domain catalogue <->
  b ∈ catalogue /\
  substring_of (lower domain) (lower (default EmptyString (Raw.Domain b))).
Proof.
  unfold matching. rewrite list_elem_of_filter, <- domain_matches_spec.
  rewrite Is_true_true. tauto.
Qed.

(** The empty domain keeps the whole catalogue. *)
Lemma matching_empty (catalogue : list Raw.breach) :
  matching EmptyString catalogue = catalogue.
Proof.
  unfold matching. induction catalogue as [|b bs IH]; [reflexivity|].
  rewrite filter_cons_True, IH; [reflexivity|].
  unfold domain_matches. simpl lower. rewrite contains_empty. exact I.
Qed.

Section Normalisation.

Variable W : World.

Lemma normalized_normal_form bs : forall u c recs,
  normalized W bs u c = Some recs -> Forall2 (normal_form W) bs recs.
Proof.
  induction bs as [|b bs IH]; intros u c recs H; simpl in H.
  - injection H as <-. constructor.
  - destruct (parsed_date W b) as [t|d] eqn:E; [discriminate|].
    destruct (normalized W bs _ _) as [recs'|] eqn:E'; [|discriminate].
    injection H as <-. constructor; [|eapply IH, E'].
    unfold normal_form. simpl. rewrite E. repeat split.
Qed.

Lemma normal_form_names bs recs :
  Forall2 (normal_form W) bs recs ->
  forall b, b ∈ bs ->
  exists r, r ∈ recs /\ Breach.breach_name r = default EmptyString (Raw.Name b).
Proof.
  induction 1 as [|b0 r0 bs recs H0 _ IH]; intros b Hb; [inversion Hb|].
  apply elem_of_cons in Hb as [->|Hb].
  - exists r0. split; [left | apply H0].
  - destruct (IH b Hb) as (r & Hr & Hn). exists r. split; [right; exact Hr | exact Hn].
Qed.

(** The success path in full: the reply, the repository, and the names
    the repository holds afterwards. *)
Lemma get_domain_breaches_success domain st catalogue :
  hibp W (requests_made st) = Responded 200 (inr catalogue) ->
  Forall (fun b => exists d, parsed_date W b = inr d) (matching domain catalogue) ->
  exists recs st',
    get_domain_breaches W domain st
      = (Returned (scan_ok (matching domain catalogue)), st') /\
    Forall2 (normal_form W) (matching domain catalogue) recs /\
    (breaches_collection st', oids_issued st')
      = foldl upsert (breaches_collection st, oids_issued st) recs /\
    (forall b, b ∈ matching domain catalogue ->
       default EmptyString (Raw.Name b) ∈ names (breaches_collection st')) /\
    domains_collection st' = domains_collection st /\
    alerts_collection st' = alerts_collection st /\
    requests_made st' = S (requests_made st).
Proof.
  intros Hget Hdates.
  apply (normalized_is_Some W _ (uuids_drawn st) (clock_reads st)) in Hdates
    as [recs Hrecs].
  destruct (get_domain_breaches_stored W domain st catalogue recs Hget Hrecs)
    as (st' & Hrun & Hfold & Hd & Ha & Hr & _ & _).
  pose proof (normalized_normal_form _ _ _ _ Hrecs) as Hnf.
  exists recs, st'. repeat (split; [assumption|]). split; [|auto].
  intros b Hb. destruct (normal_form_names _ _ Hnf b Hb) as (r & Hr' & <-).
  change (breaches_collection st') with (breaches_collection st', oids_issued st').1.
  rewrite Hfold. apply upsert_all_names, Hr'.
Qed.

End Normalisation.

(* ================================================================== *)
(** ** The claims about [get_domain_breaches] and the repository *)

(** C3: the Breach Repository upsert keeps at most one record per breach
    name. From a repository with one record per name, two upserts under
    the same breach name leave a repository with one record per name; the
    second adds no row (the names stored are those after the first);
    exactly one record carries that name, and its fields are those of the
    second upsert. *)
Theorem C3_upsert_one_record_per_name
    (coll : list Breach.doc) (oid : nat) (first second : Breach.data) :
  one_per_name coll ->
  Breach.breach_name first = Breach.breach_name second ->
  one_per_name (upsert (coll, oid) first).1 /\
  one_per_name (upsert (upsert (coll, oid) first) second).1 /\
  names (upsert (upsert (coll, oid) first) second).1
    = names (upsert (coll, oid) first).1 /\
  exists d,
    filter (named (Breach.breach_name second))
           (upsert (upsert (coll, oid) first) second).1 = [d] /\
    Breach.fields d = second.
Proof.
  intros Hinv Hsame.
  assert (H1 : one_per_name (upsert (coll, oid) first).1)
    by (apply upsert_one_per_name; exact Hinv).
  split; [exact H1|]. split; [apply upsert_one_per_name; exact H1|].
  split; [|apply upsert_selects; exact H1].
  rewrite upsert_names.
  destruct (list_find _ _) as [p|] eqn:E; [reflexivity|].
  apply list_find_None in E. rewrite Forall_forall in E.
  destruct (upsert_stored (coll, oid) first) as (i & d & Hi & Hn & _).
  exfalso. apply (E d); [apply list_elem_of_lookup; eauto|].
  unfold named in *. congruence.
Qed.

(** C4: [get_domain_breaches] never raises to its caller. It returns for
    every world, domain and state; when the request itself fails the
    reply has no matches, count 0 and the failure's text under [error];
    when the provider answers with a status other than 200 the reply has
    no matches, count 0 and a [message]. *)
Theorem C4_scan_never_raises (W : World) (domain : string) (st : State) :
  (exists r st', get_domain_breaches W domain st = (Returned r, st')) /\
  (forall reason,
     hibp W (requests_made st) = ConnectionFailed reason ->
     get_domain_breaches W domain st
       = (Returned {| ScanResult.breaches := [];
                      ScanResult.count := 0;
                      ScanResult.message := None;
                      ScanResult.error := Some reason |},
          count_request st)) /\
  (forall code body,
     hibp W (requests_made st) = Responded code body -> code <> 200 ->
     get_domain_breaches W domain st
       = (Returned {| ScanResult.breaches := [];
                      ScanResult.count := 0;
                      ScanResult.message := Some "API rate limit or error";
                      ScanResult.error := None |},
          count_request st)).
Proof.
  split; [|split].
  - destruct (get_domain_breaches_returns W domain st) as (r & st' & H & _).
    eauto.
  - intros reason H. apply get_domain_breaches_connection_failed, H.
  - intros code body H Hne. eapply get_domain_breaches_not_200; eauto.
Qed.

(** C5, as amended: the filter of [get_domain_breaches] is the
    case-insensitive substring test: an entry is kept exactly when the
    lower-cased queried domain occurs inside the entry's lower-cased
    [Domain] (the empty string when the key is missing). When the
    catalogue arrived and the reply carries no error, the reply holds the
    kept entries themselves, as the provider sent them and in catalogue
    order, and [count] is their number; the reply carries no error
    whenever the date of every matched entry parses. *)
Theorem C5_filter_is_case_insensitive_substring
    (W : World) (domain : string) (st : State) (catalogue : list Raw.breach) :
  hibp W (requests_made st) = Responded 200 (inr catalogue) ->
  (forall b, domain_matches domain b = true <->
     substring_of (lower domain) (lower (default EmptyString (Raw.Domain b)))) /\
  (forall b, b ∈ filter (fun b => domain_matches domain b) catalogue <->
     b ∈ catalogue /\
     substring_of (lower domain) (lower (default EmptyString (Raw.Domain b)))) /\
  (forall r st',
     get_domain_breaches W domain st = (Returned r, st') ->
     ScanResult.error r = None ->
     ScanResult.breaches r = filter (fun b => domain_matches domain b) catalogue /\
     ScanResult.count r = Z.of_nat (length (ScanResult.breaches r)) /\
     ScanResult.message r = None) /\
  (Forall (fun b => exists d, parsed_date W b = inr d)
          (filter (fun b => domain_matches domain b) catalogue) ->
   exists r st',
     get_domain_breaches W domain st = (Returned r, st') /\
     ScanResult.error r = None).
Proof.
  intros Hget.
  split; [intros b; apply domain_matches_spec|].
  split; [intros b; apply elem_of_matching|]. split.
  - intros r st' Hrun Herr. rewrite get_domain_breaches_run, Hget in Hrun.
    simpl in Hrun. fold (matching domain catalogue).
    destruct (for_each _ _ _) as [[[]|err] st1]; injection Hrun as <- <-.
    + repeat split.
    + discriminate.
  - intros Hdates.
    destruct (get_domain_breaches_success W domain st catalogue Hget Hdates)
      as (recs & st' & Hrun & _).
    exists (scan_ok (matching domain catalogue)), st'. split; [exact Hrun | reflexivity].
Qed.

(** C9, as amended: on the success path every matched entry is upserted,
    in catalogue order, as its normal form: the breach date is the parse
    of the entry's [BreachDate], and of "2024-01-01" when the entry has
    none; absent data classes become the empty list and an absent
    [IsVerified] becomes false. This holds when the date of every matched
    entry is absent or parses; nothing is stated for a date that does not
    parse. *)
Theorem C9_absent_date_takes_the_fallback
    (W : World) (domain : string) (st : State) (catalogue : list Raw.breach)
    (fallback : datetime) :
  hibp W (requests_made st) = Responded 200 (inr catalogue) ->
  fromisoformat W "2024-01-01" = inr fallback ->
  Forall (fun b => Raw.BreachDate b = None \/
                   exists s d, Raw.BreachDate b = Some s /\ fromisoformat W s = inr d)
         (matching domain catalogue) ->
  exists recs st',
    get_domain_breaches W domain st
      = (Returned (scan_ok (matching domain catalogue)), st') /\
    (breaches_collection st', oids_issued st')
      = foldl upsert (breaches_collection st, oids_issued st) recs /\
    Forall2 (fun b r =>
               Breach.breach_name r = default EmptyString (Raw.Name b) /\
               (Raw.BreachDate b = None -> Breach.breach_date r = fallback) /\
               (forall s, Raw.BreachDate b = Some s ->
                          fromisoformat W s = inr (Breach.breach_date r)) /\
               Breach.data_classes r = default [] (Raw.DataClasses b) /\
               Breach.verified r = default false (Raw.IsVerified b))
            (matching domain catalogue) recs /\
    (forall b, b ∈ matching domain catalogue ->
       default EmptyString (Raw.Name b) ∈ names (breaches_collection st')).
Proof.
  intros Hget Hfb Hdates.
  assert (Hparse : Forall (fun b => exists d, parsed_date W b = inr d)
                          (matching domain catalogue)).
  { eapply Forall_impl; [exact Hdates|]. intros b [Hb | (s & d & Hb & Hd)];
      unfold parsed_date; rewrite Hb; simpl; eauto. }
  destruct (get_domain_breaches_success W domain st catalogue Hget Hparse)
    as (recs & st' & Hrun & Hnf & Hfold & Hnames & _).
  exists recs, st'. repeat (split; [assumption|]). split; [|exact Hnames].
  eapply Forall2_impl; [exact Hnf|].
  intros b r (Hn & _ & _ & Hd & Hc & _ & Hv & _). unfold parsed_date in Hd.
  split; [exact Hn|]. split; [|split; [|split; assumption]].
  - intros Hb. rewrite Hb in Hd. simpl in Hd. congruence.
  - intros s Hb. rewrite Hb in Hd. exact Hd.
Qed.

(** C10: for the empty domain the filter keeps every entry of the
    catalogue: a successful scan of the empty string returns the whole
    catalogue with its length as count, and upserts every entry, so that
    the name of every catalogue entry is in the repository afterwards. *)
Theorem C10_empty_domain_matches_whole_catalogue
    (W : World) (st : State) (catalogue : list Raw.breach) :
  hibp W (requests_made st) = Responded 200 (inr catalogue) ->
  Forall (fun b => exists d, parsed_date W b = inr d) catalogue ->
  (forall b, domain_matches EmptyString b = true) /\
  exists recs st',
    get_domain_breaches W EmptyString st
      = (Returned {| ScanResult.breaches := catalogue;
                     ScanResult.count := Z.of_nat (length catalogue);
                     ScanResult.message := None;
                     ScanResult.error := None |}, st') /\
    Forall2 (normal_form W) catalogue recs /\
    (breaches_collection st', oids_issued st')
      = foldl upsert (breaches_collection st, oids_issued st) recs /\
    (forall b, b ∈ catalogue ->
       default EmptyString (Raw.Name b) ∈ names (breaches_collection st')).
Proof.
  intros Hget Hdates. split.
  - intros b. unfold domain_matches. simpl lower. apply contains_empty.
  - rewrite <- (matching_empty catalogue) in Hdates.
    destruct (get_domain_breaches_success W EmptyString st catalogue Hget Hdates)
      as (recs & st' & Hrun & Hnf & Hfold & Hnames & _).
    rewrite matching_empty in *. exists recs, st'. auto.
Qed.

(* ================================================================== *)
(** ** [comprehensive_scan] *)

Section Batch.

Variable W : World.

Lemma alerted_alerts domain_name count st :
  alerts_collection (alerted W domain_name count st)
  = alerts_collection st ++ alert_for W domain_name count st.
Proof.
  unfold alerted, alert_for. destruct (0 <? count); simpl;
    [reflexivity | rewrite app_nil_r; reflexivity].
Qed.

Lemma alerted_frame domain_name count st :
  breaches_collection (alerted W domain_name count st) = breaches_collection st /\
  domains_collection (alerted W domain_name count st) = domains_collection st /\
  requests_made (alerted W domain_name count st) = requests_made st.
Proof. unfold alerted. destruct (0 <? count); repeat split. Qed.

(** One iteration: the scan returns, its count is recorded under status
    "success", and the alert, if any, is inserted. *)
Lemma scan_one_run scan_results d st r st1 :
  get_domain_breaches W (Monitor.domain d) st = (Returned r, st1) ->
  scan_one W scan_results d st
  = (Returned (scan_results ++ [success_entry (Monitor.domain d) (ScanResult.count r)]),
     alerted W (Monitor.domain d) (ScanResult.count r) st1).
Proof.
  intros H. unfold scan_one. rewrite run_try, run_bind, H. cbv beta iota.
  rewrite run_bind. unfold alerted, alert_for.
  destruct (0 <? ScanResult.count r); reflexivity.
Qed.

Lemma scan_one_returns scan_results d st :
  exists r st1,
    get_domain_breaches W (Monitor.domain d) st = (Returned r, st1) /\
    scan_one W scan_results d st
    = (Returned (scan_results ++ [success_entry (Monitor.domain d) (ScanResult.count r)]),
       alerted W (Monitor.domain d) (ScanResult.count r) st1).
Proof.
  destruct (get_domain_breaches_returns W (Monitor.domain d) st) as (r & st1 & H & _).
  exists r, st1. split; [exact H | apply scan_one_run, H].
Qed.

(** The loop over the watchlist: one "success" entry per domain, in
    watchlist order, and one active alert per entry with a positive
    count, in the same order; the watchlist is not touched. *)
Lemma scan_all_returns ds : forall scan_results st,
  exists entries new_alerts st',
    for_fold ds scan_results (scan_one W) st = (Returned (scan_results ++ entries), st') /\
    ScanEntry.domain <$> entries = Monitor.domain <$> ds /\
    Forall (fun e => ScanEntry.status e = "success" /\ ScanEntry.error e = None) entries /\
    alerts_collection st' = alerts_collection st ++ new_alerts /\
    (fun al => (Alert.domain al, Alert.severity al)) <$> new_alerts
      = omap alert_due entries /\
    Forall (fun al => Alert.status al = "active") new_alerts /\
    domains_collection st' = domains_collection st.
Proof.
  induction ds as [|d ds IH]; intros rs st.
  - exists [], [], st. simpl. rewrite !app_nil_r. repeat split; constructor.
  - destruct (get_domain_breaches_returns W (Monitor.domain d) st)
      as (r & st1 & Hscan & Hd & Ha & _).
    simpl. rewrite run_bind, (scan_one_run rs d st r st1 Hscan).
    destruct (IH (rs ++ [success_entry (Monitor.domain d) (ScanResult.count r)])
                 (alerted W (Monitor.domain d) (ScanResult.count r) st1))
      as (entries & new & st' & Hrun & Hdom & Hok & Hal & Hdue & Hact & Hd').
    exists (success_entry (Monitor.domain d) (ScanResult.count r) :: entries),
           (alert_for W (Monitor.domain d) (ScanResult.count r) st1 ++ new), st'.
    split; [rewrite Hrun, <- app_assoc; reflexivity|].
    split; [rewrite !fmap_cons, Hdom; reflexivity|].
    split; [constructor; [split; reflexivity | exact Hok]|].
    split; [rewrite Hal, alerted_alerts, Ha, app_assoc; reflexivity|].
    split; [|split].
    + rewrite fmap_app, Hdue. unfold alert_for. simpl. unfold alert_due at 2. simpl.
      destruct (0 <? ScanResult.count r); reflexivity.
    + apply Forall_app. split; [|exact Hact].
      unfold alert_for. destruct (0 <? ScanResult.count r); repeat constructor.
    + rewrite Hd'. destruct (alerted_frame (Monitor.domain d) (ScanResult.count r) st1)
        as (_ & -> & _). exact Hd.
Qed.

Lemma comprehensive_scan_run st entries st' :
  for_fold (domains_collection st) [] (scan_one W) st = (Returned entries, st') ->
  comprehensive_scan W st
  = (Returned {| ScanReport.message := "Comprehensive scan completed";
                 ScanReport.scanned_domains := Some (Z.of_nat (length entries));
                 ScanReport.results := Some entries;
                 ScanReport.error := None |}, st').
Proof.
  intros H. unfold comprehensive_scan.
  rewrite run_try, run_bind. unfold domains_find. cbv beta iota.
  rewrite run_bind, H. reflexivity.
Qed.

(** The batch is never aborted: the report has one entry per watched
    domain, each with status "success", and the ledger grows by one
    alert per entry with a positive count. *)
Lemma comprehensive_scan_completes st :
  exists entries new_alerts st',
    comprehensive_scan W st
    = (Returned {| ScanReport.message := "Comprehensive scan completed";
                   ScanReport.scanned_domains := Some (Z.of_nat (length entries));
                   ScanReport.results := Some entries;
                   ScanReport.error := None |}, st') /\
    ScanEntry.domain <$> entries = Monitor.domain <$> domains_collection st /\
    Forall (fun e => ScanEntry.status e = "success" /\ ScanEntry.error e = None) entries /\
    alerts_collection st' = alerts_collection st ++ new_alerts /\
    (fun al => (Alert.domain al, Alert.severity al)) <$> new_alerts
      = omap alert_due entries /\
    Forall (fun al => Alert.status al = "active") new_alerts.
Proof.
  destruct (scan_all_returns (domains_collection st) [] st)
    as (entries & new & st' & Hrun & Hdom & Hok & Hal & Hdue & Hact & _).
  exists entries, new, st'. split; [apply comprehensive_scan_run, Hrun | auto 10].
Qed.

End Batch.

Lemma get_domain_breaches_provider_failed W domain st :
  provider_failed (hibp W (requests_made st)) ->
  exists r,
    get_domain_breaches W domain st = (Returned r, count_request st) /\
    ScanResult.count r = 0 /\ ScanResult.breaches r = [].
Proof.
  intros H. rewrite get_domain_breaches_run.
  destruct (hibp W (requests_made st)) as [reason|code body]; simpl in H.
  - eexists. repeat split.
  - destruct (decide (code = 200)) as [->|Hne]; [|eexists; repeat split].
    destruct H as [H|[text ->]]; [contradiction|]. eexists. repeat split.
Qed.

(** What a scan replies depends on the state only through the number
    of the request it makes. *)
Lemma store_all_outcome (W : World) bs : forall st st',
  (for_each bs (store_breach W) st).1 = (for_each bs (store_breach W) st').1.
Proof.
  induction bs as [|b bs IH]; intros st st'; simpl; [reflexivity|].
  rewrite !run_bind. destruct (parsed_date W b) as [t|d] eqn:E.
  - rewrite !(store_breach_unparsed W _ _ _ E). reflexivity.
  - rewrite !(store_breach_parsed W _ _ _ E). cbv zeta. apply IH.
Qed.

Lemma get_domain_breaches_reply (W : World) domain st st' :
  requests_made st = requests_made st' ->
  (get_domain_breaches W domain st).1 = (get_domain_breaches W domain st').1.
Proof.
  intros Hreq. rewrite !get_domain_breaches_run, Hreq.
  destruct (hibp W (requests_made st')) as [reason|code body]; [reflexivity|].
  destruct (decide (code = 200)); [|reflexivity].
  destruct body as [text|catalogue]; [reflexivity|].
  pose proof (store_all_outcome W (matching domain catalogue)
                (count_request st) (count_request st')) as H.
  destruct (for_each _ _ (count_request st)) as [[[]|err] s1],
           (for_each _ _ (count_request st')) as [[[]|err'] s2];
    simpl in *; congruence.
Qed.

(** The loop over the watchlist, domain by domain: the entry at a
    position of the report is the entry of the domain at that position
    of the watchlist, with the count its scan returns, and the alerts
    added are those the entries call for. *)
Lemma scan_all_traced (W : World) ds : forall scan_results st,
  exists entries new_alerts st',
    for_fold ds scan_results (scan_one W) st = (Returned (scan_results ++ entries), st') /\
    length entries = length ds /\
    (forall i d, ds !! i = Some d ->
       exists r,
         (forall s, requests_made s = (requests_made st + i)%nat ->
            exists s', get_domain_breaches W (Monitor.domain d) s = (Returned r, s')) /\
         entries !! i = Some (success_entry (Monitor.domain d) (ScanResult.count r))) /\
    alerts_collection st' = alerts_collection st ++ new_alerts /\
    (fun al => (Alert.domain al, Alert.severity al)) <$> new_alerts
      = omap alert_due entries /\
    Forall (fun al => Alert.status al = "active") new_alerts.
Proof.
  induction ds as [|d ds IH]; intros rs st.
  - exists [], [], st. simpl. rewrite !app_nil_r.
    repeat split; try constructor. intros i d Hi. discriminate.
  - destruct (get_domain_breaches_returns W (Monitor.domain d) st)
      as (r & st1 & Hscan & _ & Ha & Hreq).
    simpl. rewrite run_bind, (scan_one_run W rs d st r st1 Hscan).
    destruct (IH (rs ++ [success_entry (Monitor.domain d) (ScanResult.count r)])
                 (alerted W (Monitor.domain d) (ScanResult.count r) st1))
      as (entries & new & st' & Hrun & Hlen & Hat & Hal & Hdue & Hact).
    destruct (alerted_frame W (Monitor.domain d) (ScanResult.count r) st1)
      as (_ & _ & Hreq').
    exists (success_entry (Monitor.domain d) (ScanResult.count r) :: entries),
           (alert_for W (Monitor.domain d) (ScanResult.count r) st1 ++ new), st'.
    split; [rewrite Hrun, <- app_assoc; reflexivity|].
    split; [simpl; rewrite Hlen; reflexivity|].
    split; [|split; [|split]].
    + intros [|i] d' Hi; simpl in Hi.
      * injection Hi as <-. exists r. split; [|reflexivity].
        intros s Hs. pose proof (get_domain_breaches_reply W (Monitor.domain d) s st) as Hrep.
        rewrite Hscan in Hrep. simpl in Hrep.
        destruct (get_domain_breaches W (Monitor.domain d) s) as [res s'].
        exists s'. simpl in Hrep. rewrite Hrep by lia. reflexivity.
      * destruct (Hat i d' Hi) as (r' & Hall & Hentry).
        exists r'. split; [|exact Hentry].
        intros s Hs. apply Hall. rewrite Hreq', Hreq. lia.
    + rewrite Hal, alerted_alerts, Ha, app_assoc. reflexivity.
    + rewrite fmap_app, Hdue. unfold alert_for. simpl. unfold alert_due at 2. simpl.
      destruct (0 <? ScanResult.count r); reflexivity.
    + apply Forall_app. split; [|exact Hact].
      unfold alert_for. destruct (0 <? ScanResult.count r); repeat constructor.
Qed.

(** C2: [comprehensive_scan] scans every monitored domain and, for a
    domain whose scan returns [n] matches, appends to the Alert Ledger
    exactly one alert when [n > 0], whatever the number of matched
    breaches, and none when [n = 0]. The report has one entry per
    monitored domain, in watchlist order, with the count the domain's
    scan returns (the scan being the request of the domain's position);
    the alerts added are, in order, one active alert per entry with a
    positive count, for that entry's domain, of severity "high" when the
    count exceeds 5 and "medium" otherwise: 6 gives "high", 5 gives
    "medium". The iteration for one domain inserts the alert spelled out
    below. *)
Theorem C2_one_alert_per_domain_by_threshold
    (W : World) (scan_results : list ScanEntry.t) (d : Monitor.doc) (st : State) :
  (exists r st1 st2,
     get_domain_breaches W (Monitor.domain d) st = (Returned r, st1) /\
     scan_one W scan_results d st
       = (Returned (scan_results
                    ++ [ {| ScanEntry.domain := Monitor.domain d;
                            ScanEntry.breaches_found := Some (ScanResult.count r);
                            ScanEntry.status := "success";
                            ScanEntry.error := None |} ]), st2) /\
     alerts_collection st2
       = alerts_collection st ++
         (if 0 <? ScanResult.count r then
            [ {| Alert._id := oids_issued st1;
                 Alert.id := uuid_source W (uuids_drawn st1);
                 Alert.domain := Monitor.domain d;
                 Alert.breach_name := "Multiple breaches detected";
                 Alert.severity :=
                   if 5 <? ScanResult.count r then "high" else "medium";
                 Alert.message :=
                   "Found " +:+ pretty (ScanResult.count r) +:+ " breaches for "
                   +:+ Monitor.domain d;
                 Alert.created_at := clock W (clock_reads st1);
                 Alert.status := "active";
                 Alert.dismissed_at := None |} ]
          else [])) /\
  (exists entries new_alerts st',
     comprehensive_scan W st
       = (Returned {| ScanReport.message := "Comprehensive scan completed";
                      ScanReport.scanned_domains := Some (Z.of_nat (length entries));
                      ScanReport.results := Some entries;
                      ScanReport.error := None |}, st') /\
     length entries = length (domains_collection st) /\
     (forall i m, domains_collection st !! i = Some m ->
        exists r,
          (forall s, requests_made s = (requests_made st + i)%nat ->
             exists s',
               get_domain_breaches W (Monitor.domain m) s = (Returned r, s')) /\
          entries !! i
          = Some {| ScanEntry.domain := Monitor.domain m;
                    ScanEntry.breaches_found := Some (ScanResult.count r);
                    ScanEntry.status := "success";
                    ScanEntry.error := None |}) /\
     alerts_collection st' = alerts_collection st ++ new_alerts /\
     (fun al => (Alert.domain al, Alert.severity al)) <$> new_alerts
       = omap (fun e =>
                 match ScanEntry.breaches_found e with
                 | Some n =>
                     if 0 <? n
                     then Some (ScanEntry.domain e, if 5 <? n then "high" else "medium")
                     else None
                 | None => None
                 end) entries /\
     Forall (fun al => Alert.status al = "active") new_alerts) /\
  severity_of 6 = "high" /\ severity_of 5 = "medium" /\
  (forall n, severity_of n = "high" <-> 5 < n).
Proof.
  split; [|split; [|split; [|split]]].
  - destruct (get_domain_breaches_returns W (Monitor.domain d) st)
      as (r & st1 & Hscan & _ & Ha & _).
    exists r, st1, (alerted W (Monitor.domain d) (ScanResult.count r) st1).
    split; [exact Hscan|]. split; [apply scan_one_run, Hscan|].
    rewrite alerted_alerts, Ha. unfold alert_for.
    destruct (0 <? ScanResult.count r); reflexivity.
  - destruct (scan_all_traced W (domains_collection st) [] st)
      as (entries & new & st' & Hrun & Hlen & Hat & Hal & Hdue & Hact).
    simpl in Hrun. exists entries, new, st'.
    split; [apply comprehensive_scan_run, Hrun|].
    split; [exact Hlen|]. split; [exact Hat|]. split; [exact Hal|].
    split; [exact Hdue | exact Hact].
  - reflexivity.
  - reflexivity.
  - intros n. unfold severity_of. destruct (Z.ltb_spec 5 n).
    + split; [intros _; assumption | reflexivity].
    + split; [discriminate | lia].
Qed.

(** What [comprehensive_scan] does when a provider call fails. Over a
    watchlist [a; b; c] where the provider call for [b] fails and the
    scans of [a] and [c] succeed, the report has three entries in
    watchlist order, all with status "success": [a] and [c] with the
    number of catalogue entries that match them, [b] with 0 and no error
    detail; the [except] branch that would record status "error" is not
    reached. The ledger receives an alert for [a] and for [c] when their
    counts are positive, and none for [b]. *)
Theorem provider_failure_is_reported_as_empty_success
    (W : World) (st : State) (a b c : Monitor.doc)
    (catalogue_a catalogue_c : list Raw.breach) :
  domains_collection st = [a; b; c] ->
  hibp W (requests_made st) = Responded 200 (inr catalogue_a) ->
  Forall (fun x => exists d, parsed_date W x = inr d)
         (matching (Monitor.domain a) catalogue_a) ->
  provider_failed (hibp W (S (requests_made st))) ->
  hibp W (S (S (requests_made st))) = Responded 200 (inr catalogue_c) ->
  Forall (fun x => exists d, parsed_date W x = inr d)
         (matching (Monitor.domain c) catalogue_c) ->
  exists new_alerts st',
    let count_a := Z.of_nat (length (matching (Monitor.domain a) catalogue_a)) in
    let count_c := Z.of_nat (length (matching (Monitor.domain c) catalogue_c)) in
    comprehensive_scan W st
      = (Returned
           {| ScanReport.message := "Comprehensive scan completed";
              ScanReport.scanned_domains := Some 3;
              ScanReport.results :=
                Some [ {| ScanEntry.domain := Monitor.domain a;
                          ScanEntry.breaches_found := Some count_a;
                          ScanEntry.status := "success";
                          ScanEntry.error := None |};
                       {| ScanEntry.domain := Monitor.domain b;
                          ScanEntry.breaches_found := Some 0;
                          ScanEntry.status := "success";
                          ScanEntry.error := None |};
                       {| ScanEntry.domain := Monitor.domain c;
                          ScanEntry.breaches_found := Some count_c;
                          ScanEntry.status := "success";
                          ScanEntry.error := None |} ];
              ScanReport.error := None |}, st') /\
    alerts_collection st' = alerts_collection st ++ new_alerts /\
    Alert.domain <$> new_alerts
      = (if 0 <? count_a then [Monitor.domain a] else [])
        ++ (if 0 <? count_c then [Monitor.domain c] else []) /\
    Alert.severity <$> new_alerts
      = (if 0 <? count_a then [severity_of count_a] else [])
        ++ (if 0 <? count_c then [severity_of count_c] else []).
Proof.
  intros Hds Ha Hda Hb Hc Hdc.
  destruct (get_domain_breaches_success W _ st catalogue_a Ha Hda)
    as (recs_a & st1 & Hrun_a & _ & _ & _ & _ & Hal1 & Hreq1).
  set (na := ScanResult.count (scan_ok (matching (Monitor.domain a) catalogue_a))) in *.
  set (st1' := alerted W (Monitor.domain a) na st1).
  destruct (alerted_frame W (Monitor.domain a) na st1) as (_ & _ & Hreq1').
  fold st1' in Hreq1'.
  assert (Hb' : provider_failed (hibp W (requests_made st1')))
    by (rewrite Hreq1', Hreq1; exact Hb).
  destruct (get_domain_breaches_provider_failed W (Monitor.domain b) st1' Hb')
    as (rb & Hrun_b & Hcount_b & _).
  set (st2 := count_request st1') in *.
  assert (Hc' : hibp W (requests_made st2) = Responded 200 (inr catalogue_c))
    by (unfold st2; simpl; rewrite Hreq1', Hreq1; exact Hc).
  destruct (get_domain_breaches_success W _ st2 catalogue_c Hc' Hdc)
    as (recs_c & st3 & Hrun_c & _ & _ & _ & _ & Hal3 & _).
  set (nc := ScanResult.count (scan_ok (matching (Monitor.domain c) catalogue_c))) in *.
  exists (alert_for W (Monitor.domain a) na st1 ++ alert_for W (Monitor.domain c) nc st3),
         (alerted W (Monitor.domain c) nc st3).
  cbv zeta. split; [|split; [|split]].
  - apply (comprehensive_scan_run W st
             [success_entry (Monitor.domain a) na;
              success_entry (Monitor.domain b) 0;
              success_entry (Monitor.domain c) nc]).
    rewrite Hds. simpl.
    rewrite run_bind, (scan_one_run W _ a st _ st1 Hrun_a).
    rewrite run_bind, (scan_one_run W _ b _ rb st2 Hrun_b), Hcount_b.
    change (alerted W (Monitor.domain b) 0 st2) with st2.
    rewrite run_bind, (scan_one_run W _ c _ _ st3 Hrun_c). reflexivity.
  - rewrite alerted_alerts, Hal3. unfold st2. simpl.
    unfold st1'. rewrite alerted_alerts, Hal1, app_assoc. reflexivity.
  - rewrite fmap_app. unfold alert_for, na, nc. simpl ScanResult.count.
    destruct (0 <? _), (0 <? _); reflexivity.
  - rewrite fmap_app. unfold alert_for, na, nc. simpl ScanResult.count.
    destruct (0 <? _), (0 <? _); reflexivity.
Qed.

(* ================================================================== *)
(** ** [search_email_breaches] *)

Lemma email_domain_run (email : string) (st : State) :
  email_domain email st = (Returned (derived_domain email), st).
Proof.
  unfold email_domain, derived_domain.
  destruct (contains "@" email) eqn:E; [|reflexivity].
  destruct (split_has_second "@"%char email E) as (a & b & rest & ->).
  reflexivity.
Qed.

(** For an address with one '@' the derived domain is what follows it. *)
Lemma derived_domain_suffix (local dom : string) :
  contains "@" local = false -> contains "@" dom = false ->
  derived_domain (local +:+ String "@"%char dom) = dom.
Proof.
  intros Hl Hd. unfold derived_domain.
  assert (H : contains "@" (local +:+ String "@"%char dom) = true)
    by (apply contains_spec; exists local, dom; reflexivity).
  rewrite H, (split_first _ _ _ Hl), (split_no_sep _ _ Hd). reflexivity.
Qed.

(** C6, as amended: [search_email_breaches] derives the domain as the
    text after the first '@' (up to a second one; empty without '@'),
    makes no provider call and writes nothing, and returns the first 20
    stored records, in store order, whose domain matches the derived
    domain as a case-insensitive regular expression or whose compromised
    count is positive. When the store rejects the pattern the reply is
    empty and carries the error. *)
Theorem C6_email_search_reads_the_repository
    (W : World) (email : string) (st : State) :
  search_email_breaches W email st
  = (Returned
       match regex_i W (derived_domain email) with
       | inr search =>
           let found :=
             take 20 (filter (fun d => email_query search d) (breaches_collection st)) in
           {| EmailReply.email := Some email;
              EmailReply.breaches_found := Z.of_nat (length found);
              EmailReply.breaches := found;
              EmailReply.status := Some "scanned";
              EmailReply.error := None |}
       | inl text =>
           {| EmailReply.email := None;
              EmailReply.breaches_found := 0;
              EmailReply.breaches := [];
              EmailReply.status := None;
              EmailReply.error := Some text |}
       end, st) /\
  (forall search,
     (length (take 20 (filter (fun d => email_query search d)
                         (breaches_collection st))) <= 20)%nat) /\
  (forall local dom,
     contains "@" local = false -> contains "@" dom = false ->
     derived_domain (local +:+ String "@"%char dom) = dom).
Proof.
  split; [|split].
  - unfold search_email_breaches. rewrite run_try, run_bind, email_domain_run.
    cbv beta iota. rewrite run_bind. unfold breaches_find_email.
    destruct (regex_i W (derived_domain email)) as [text|search]; reflexivity.
  - intros search. rewrite length_take. lia.
  - apply derived_domain_suffix.
Qed.

(* ================================================================== *)
(** ** [dismiss_alert] *)

Lemma set_dismissed_fixed (now : datetime) (a : Alert.doc) :
  set_dismissed now a = a <->
  Alert.status a = "dismissed" /\ Alert.dismissed_at a = Some now.
Proof.
  destruct a as [oid aid dom bn sev msg cr stt dis]. unfold set_dismissed. simpl.
  split.
  - intros H. injection H as <- <-. split; reflexivity.
  - intros [-> ->]. reflexivity.
Qed.

Lemma dismiss_alert_run (W : World) (alert_id : string) (st : State) :
  dismiss_alert W alert_id st =
  match list_find (fun al => Alert.id al = alert_id) (alerts_collection st) with
  | Some (i, al) =>
      (Returned {| DismissReply.message := "Alert dismissed";
                   DismissReply.modified :=
                     if decide (set_dismissed (clock W (clock_reads st)) al = al)
                     then 0 else 1 |},
       set_alerts (<[i := set_dismissed (clock W (clock_reads st)) al]>
                     (alerts_collection st)) (count_clock st))
  | None =>
      (Returned {| DismissReply.message := "Alert dismissed";
                   DismissReply.modified := 0 |}, count_clock st)
  end.
Proof.
  unfold dismiss_alert. rewrite run_bind. unfold datetime_now at 1. cbv beta iota.
  rewrite run_bind. unfold alerts_update_one.
  change (alerts_collection (count_clock st)) with (alerts_collection st).
  destruct (list_find _ _) as [[i al]|]; reflexivity.
Qed.

(** C7, as amended: [dismiss_alert] never raises. For an id no alert
    carries it returns modified 0 and leaves the ledger as it is. For
    any other id it writes status "dismissed" and the current time as
    dismissed-at into the first alert with that id, whatever the alert's
    status was, and returns modified 1 unless the alert already held
    exactly these two values. *)
Theorem C7_dismiss_rewrites_any_alert_with_the_id
    (W : World) (alert_id : string) (st : State) :
  match list_find (fun al => Alert.id al = alert_id) (alerts_collection st) with
  | None =>
      dismiss_alert W alert_id st
      = (Returned {| DismissReply.message := "Alert dismissed";
                     DismissReply.modified := 0 |},
         count_clock st)
  | Some (i, al) =>
      let now := clock W (clock_reads st) in
      let dismissed :=
        {| Alert._id := Alert._id al;
           Alert.id := Alert.id al;
           Alert.domain := Alert.domain al;
           Alert.breach_name := Alert.breach_name al;
           Alert.severity := Alert.severity al;
           Alert.message := Alert.message al;
           Alert.created_at := Alert.created_at al;
           Alert.status := "dismissed";
           Alert.dismissed_at := Some now |} in
      dismiss_alert W alert_id st
      = (Returned {| DismissReply.message := "Alert dismissed";
                     DismissReply.modified :=
                       if decide (Alert.status al = "dismissed"
                                  /\ Alert.dismissed_at al = Some now)
                       then 0 else 1 |},
         set_alerts (<[i := dismissed]> (alerts_collection st)) (count_clock st))
      /\ <[i := dismissed]> (alerts_collection st) !! i = Some dismissed
      /\ (Alert.status al = "active" ->
          (dismiss_alert W alert_id st).1
          = Returned {| DismissReply.message := "Alert dismissed";
                        DismissReply.modified := 1 |})
  end.
Proof.
  rewrite dismiss_alert_run.
  destruct (list_find _ _) as [[i al]|] eqn:E; [|reflexivity].
  cbv zeta. fold (set_dismissed (clock W (clock_reads st)) al).
  assert (Hm : (if decide (set_dismissed (clock W (clock_reads st)) al = al)
                then 0 else 1)
               = (if decide (Alert.status al = "dismissed"
                             /\ Alert.dismissed_at al = Some (clock W (clock_reads st)))
                  then 0 else 1)).
  { destruct (decide (set_dismissed _ al = al)) as [H|H], (decide (_ /\ _)) as [H'|H'];
      try reflexivity; rewrite set_dismissed_fixed in H; contradiction. }
  rewrite Hm. split; [reflexivity|]. split.
  - apply list_find_Some in E as (Hi & _). apply list_lookup_insert_eq.
    eapply lookup_lt_Some, Hi.
  - intros Hact. cbn [fst].
    destruct (decide (Alert.status al = "dismissed" /\ _)) as [[Hd _]|_];
      [|reflexivity].
    rewrite Hact in Hd. discriminate.
Qed.

(* ================================================================== *)
(** ** [add_domain_monitor] *)

(** C8: registration is idempotent on the domain. When the watchlist
    already holds the domain, [add_domain_monitor] answers "Domain
    already being monitored" with the [_id] of the first entry that has
    it, and changes none of the collections and calls no provider. When
    it does not, [add_domain_monitor] appends one entry with status
    "active", runs [get_domain_breaches] once and drops what it returns,
    and answers "Domain monitoring activated" with the new [_id]; a
    second registration then finds that entry, returns its [_id] again
    and leaves the watchlist as it is. *)
Theorem C8_registration_is_idempotent
    (W : World) (domain_data : DomainMonitor) (st : State) :
  match list_find (fun m => Monitor.domain m = dm_domain domain_data)
                  (domains_collection st) with
  | Some (i, found) =>
      exists st',
        add_domain_monitor W domain_data st
        = (Returned {| MonitorReply.message := "Domain already being monitored";
                       MonitorReply.id := Monitor._id found |}, st') /\
        domains_collection st' = domains_collection st /\
        breaches_collection st' = breaches_collection st /\
        alerts_collection st' = alerts_collection st /\
        requests_made st' = requests_made st
  | None =>
      let record :=
        {| Monitor._id := oids_issued st;
           Monitor.id := uuid_source W (uuids_drawn st);
           Monitor.domain := dm_domain domain_data;
           Monitor.email_patterns := dm_email_patterns domain_data;
           Monitor.created_at := clock W (clock_reads st);
           Monitor.status := "active" |} in
      let inserted :=
        issue_oid (set_domains (domains_collection st ++ [record])
                     (count_clock (count_uuid st))) in
      exists scan st' st'',
        add_domain_monitor W domain_data st
        = (Returned {| MonitorReply.message := "Domain monitoring activated";
                       MonitorReply.id := oids_issued st |}, st') /\
        get_domain_breaches W (dm_domain domain_data) inserted = (Returned scan, st') /\
        domains_collection st' = domains_collection st ++ [record] /\
        alerts_collection st' = alerts_collection st /\
        requests_made st' = S (requests_made st) /\
        add_domain_monitor W domain_data st'
        = (Returned {| MonitorReply.message := "Domain already being monitored";
                       MonitorReply.id := oids_issued st |}, st'') /\
        domains_collection st'' = domains_collection st' /\
        breaches_collection st'' = breaches_collection st' /\
        requests_made st'' = requests_made st'
  end.
Proof.
  assert (Hfound : forall s i found,
    list_find (fun m => Monitor.domain m = dm_domain domain_data)
              (domains_collection s) = Some (i, found) ->
    add_domain_monitor W domain_data s
    = (Returned {| MonitorReply.message := "Domain already being monitored";
                   MonitorReply.id := Monitor._id found |},
       count_clock (count_uuid s))).
  { intros s i found E. unfold add_domain_monitor.
    rewrite run_bind. unfold uuid4 at 1. cbv beta iota.
    rewrite run_bind. unfold datetime_now at 1. cbv beta iota.
    rewrite run_bind. unfold domains_find_one.
    change (domains_collection (count_clock (count_uuid s)))
      with (domains_collection s).
    rewrite E. reflexivity. }
  destruct (list_find _ _) as [[i found]|] eqn:E.
  - eexists. split; [eapply Hfound, E|]. repeat split.
  - cbv zeta.
    set (record := Monitor.Doc (oids_issued st) _ _ _ _ _).
    set (inserted := issue_oid _).
    destruct (get_domain_breaches_returns W (dm_domain domain_data) inserted)
      as (scan & st' & Hscan & Hd & Ha & Hr).
    assert (Hfind : list_find (fun m => Monitor.domain m = dm_domain domain_data)
                      (domains_collection st')
                    = Some (length (domains_collection st), record)).
    { rewrite Hd. apply list_find_app_Some. right. split; [simpl; lia|].
      split; [exact E|]. rewrite Nat.sub_diag. simpl.
      destruct (decide (dm_domain domain_data = dm_domain domain_data));
        [reflexivity | contradiction]. }
    exists scan, st', (count_clock (count_uuid st')).
    split; [|split; [exact Hscan|split; [exact Hd|split; [exact Ha|split; [exact Hr|]]]]].
    + unfold add_domain_monitor.
      rewrite run_bind. unfold uuid4 at 1. cbv beta iota.
      rewrite run_bind. unfold datetime_now at 1. cbv beta iota.
      rewrite run_bind. unfold domains_find_one.
      change (domains_collection (count_clock (count_uuid st)))
        with (domains_collection st).
      rewrite E.
      change (snd <$> @None (nat * Monitor.doc)) with (@None Monitor.doc).
      cbv beta iota.
      rewrite run_bind. unfold domains_insert_one. cbv beta iota zeta.
      change (issue_oid _) with inserted.
      rewrite run_bind, run_try, run_bind, Hscan. reflexivity.
    + split; [apply (Hfound st' _ record Hfind)|]. repeat split.
Qed.

(* ================================================================== *)

(** A boolean check that discharges the parsing premise on concrete data. *)
Lemma parsed_all_check (W : World) (bs : list Raw.breach) :
  forallb (fun b => match parsed_date W b with inr _ => true | inl _ => false end) bs
  = true ->
  Forall (fun b => exists d, parsed_date W b = inr d) bs.
Proof.
  induction bs as [|b bs IH]; simpl; [constructor|].
  destruct (parsed_date W b) as [t|d] eqn:E; simpl; [discriminate|].
  intros H. constructor; [eauto | apply IH, H].
Qed.

(** C1: the code at the failing input. The provider drops the request
    for the second of three watched domains ("b.org"). C1 asks for an
    entry with status "error" and the error detail; the report has the
    entry with status "success", 0 breaches and no error, because
    [get_domain_breaches] has caught the failure and [comprehensive_scan]
    reads only the count of its reply. *)
Lemma C1_failed_call_is_marked_success :
  hibp flaky_world 1 = ConnectionFailed "Read timed out." /\
  (comprehensive_scan flaky_world three_domains).1
  = Returned
      {| ScanReport.message := "Comprehensive scan completed";
         ScanReport.scanned_domains := Some 3;
         ScanReport.results :=
           Some [ {| ScanEntry.domain := "x.com";
                     ScanEntry.breaches_found := Some 2;
                     ScanEntry.status := "success";
                     ScanEntry.error := None |};
                  {| ScanEntry.domain := "b.org";
                     ScanEntry.breaches_found := Some 0;
                     ScanEntry.status := "success";
                     ScanEntry.error := None |};
                  {| ScanEntry.domain := "y.x.com";
                     ScanEntry.breaches_found := Some 1;
                     ScanEntry.status := "success";
                     ScanEntry.error := None |} ];
         ScanReport.error := None |}.
Proof. split; vm_compute; reflexivity. Qed.

Lemma provider_failure_is_reported_as_empty_success_witness :
  exists new_alerts st',
    comprehensive_scan flaky_world three_domains
    = (Returned
         {| ScanReport.message := "Comprehensive scan completed";
            ScanReport.scanned_domains := Some 3;
            ScanReport.results :=
              Some [ success_entry "x.com" 2; success_entry "b.org" 0;
                     success_entry "y.x.com" 1 ];
            ScanReport.error := None |}, st') /\
    alerts_collection st' = new_alerts /\
    Alert.domain <$> new_alerts = ["x.com"; "y.x.com"] /\
    Alert.severity <$> new_alerts = ["medium"; "medium"].
Proof.
  destruct (provider_failure_is_reported_as_empty_success
              flaky_world three_domains
              (watch 0 "x.com") (watch 1 "b.org") (watch 2 "y.x.com")
              two_match_catalogue two_match_catalogue)
    as (new_alerts & st' & Hrun & Hal & Hdom & Hsev).
  - reflexivity.
  - reflexivity.
  - apply parsed_all_check. vm_compute. reflexivity.
  - exact I.
  - reflexivity.
  - apply parsed_all_check. vm_compute. reflexivity.
  - exists new_alerts, st'. split; [exact Hrun|].
    split; [exact Hal|]. split; [exact Hdom | exact Hsev].
Defined.

Lemma C3_witness_adobe_twice :
  one_per_name [linkedin_doc] /\
  Breach.breach_name adobe_first = Breach.breach_name adobe_second /\
  exists d,
    filter (named "Adobe") (upsert (upsert ([linkedin_doc], 1%nat) adobe_first) adobe_second).1
    = [d] /\
    Breach.fields d = adobe_second.
Proof.
  assert (H : one_per_name [linkedin_doc]) by (apply NoDup_singleton).
  split; [exact H|]. split; [reflexivity|].
  exact (proj2 (proj2 (proj2
    (C3_upsert_one_record_per_name [linkedin_doc] 1 adobe_first adobe_second
       H eq_refl)))).
Defined.

Lemma C4_witness_timeout :
  hibp (world_of []) 0 = ConnectionFailed "Read timed out." /\
  get_domain_breaches (world_of []) "adobe.com" (store [] [] [])
  = (Returned {| ScanResult.breaches := [];
                 ScanResult.count := 0;
                 ScanResult.message := None;
                 ScanResult.error := Some "Read timed out." |},
     count_request (store [] [] [])).
Proof.
  split; [reflexivity|].
  exact (proj1 (proj2 (C4_scan_never_raises (world_of []) "adobe.com" (store [] [] [])))
           "Read timed out." eq_refl).
Defined.

Lemma C5_witness_adobe :
  hibp (world_of [Responded 200 (inr adobe_catalogue)]) 0
    = Responded 200 (inr adobe_catalogue) /\
  exists r st',
    get_domain_breaches (world_of [Responded 200 (inr adobe_catalogue)])
                        "adobe.com" (store [] [] []) = (Returned r, st') /\
    ScanResult.error r = None /\
    ScanResult.breaches r
      = [ entry "Adobe" "ADOBE.COM.AU" "2013-10-04";
          entry "AdobeStock" "www.adobe.com" "2019-10-25" ] /\
    ScanResult.count r = 2.
Proof.
  split; [reflexivity|].
  destruct (C5_filter_is_case_insensitive_substring
              (world_of [Responded 200 (inr adobe_catalogue)]) "adobe.com"
              (store [] [] []) adobe_catalogue eq_refl)
    as (_ & _ & Hreply & Hruns).
  destruct Hruns as (r & st' & Hrun & Herr);
    [apply parsed_all_check; vm_compute; reflexivity|].
  destruct (Hreply r st' Hrun Herr) as (Hb & Hc & _).
  exists r, st'. split; [exact Hrun|]. split; [exact Herr|].
  rewrite Hc, Hb. split; reflexivity.
Defined.

(** The catalogue arrives and two of its entries match the domain, but
    the first carries a date in another format: the reply holds no match
    and count 0. Against C5 as stated. *)
Lemma C5_matched_entries_are_not_returned :
  hibp (world_of [Responded 200 (inr misdated_catalogue)]) 0
    = Responded 200 (inr misdated_catalogue) /\
  filter (fun b => domain_matches "x.com" b) misdated_catalogue = misdated_catalogue /\
  length misdated_catalogue = 2%nat /\
  exists r st',
    get_domain_breaches (world_of [Responded 200 (inr misdated_catalogue)])
                        "x.com" (store [] [] []) = (Returned r, st') /\
    ScanResult.breaches r = [] /\ ScanResult.count r = 0 /\
    is_Some (ScanResult.error r).
Proof.
  split; [reflexivity|]. split; [vm_compute; reflexivity|]. split; [reflexivity|].
  eexists _, _. split; [vm_compute; reflexivity|]. simpl. eauto.
Qed.

(** A stored record of another domain is returned for an address at
    dropbox.com, because its compromised count is positive: against C6
    as stated. *)
Lemma C6_returns_records_of_other_domains :
  contains (lower "dropbox.com") (lower (Breach.domain (Breach.fields linkedin_doc)))
    = false /\
  search_email_breaches (world_of []) "user@dropbox.com" (store [linkedin_doc] [] [])
  = (Returned {| EmailReply.email := Some "user@dropbox.com";
                 EmailReply.breaches_found := 1;
                 EmailReply.breaches := [linkedin_doc];
                 EmailReply.status := Some "scanned";
                 EmailReply.error := None |},
     store [linkedin_doc] [] []).
Proof. split; vm_compute; reflexivity. Qed.

(** Dismissing an alert that is already dismissed reports one document
    modified and moves its dismissed-at time: against C7 as stated. *)
Lemma C7_repeated_dismissal_modifies :
  Alert.status dismissed_alert = "dismissed" /\
  (dismiss_alert (world_of []) "alert-1" (store [] [] [dismissed_alert])).1
  = Returned {| DismissReply.message := "Alert dismissed";
                DismissReply.modified := 1 |} /\
  Alert.dismissed_at
    <$> alerts_collection
          (dismiss_alert (world_of []) "alert-1" (store [] [] [dismissed_alert])).2
  = [Some 1700000000000].
Proof. repeat split; vm_compute; reflexivity. Qed.

(** A matched entry whose date is not in ISO format gets no fallback
    date, and the well-formed entry after it is not stored either: the
    scan ends with an empty repository. Against C9 as stated. *)
Lemma C9_unparseable_date_stops_the_scan :
  matching "x.com" misdated_catalogue = misdated_catalogue /\
  get_domain_breaches (world_of [Responded 200 (inr misdated_catalogue)])
                      "x.com" (store [] [] [])
  = (Returned {| ScanResult.breaches := [];
                 ScanResult.count := 0;
                 ScanResult.message := None;
                 ScanResult.error := Some "Invalid isoformat string: 31/08/2016" |},
     count_uuid (count_request (store [] [] []))) /\
  breaches_collection
    (get_domain_breaches (world_of [Responded 200 (inr misdated_catalogue)])
                         "x.com" (store [] [] [])).2 = [].
Proof. repeat split; vm_compute; reflexivity. Qed.

Lemma C9_witness_undated_entry :
  hibp (world_of [Responded 200 (inr undated_catalogue)]) 0
    = Responded 200 (inr undated_catalogue) /\
  fromisoformat (world_of [Responded 200 (inr undated_catalogue)]) "2024-01-01"
    = inr 1704067200000 /\
  exists recs st',
    get_domain_breaches (world_of [Responded 200 (inr undated_catalogue)])
                        "example.org" (store [] [] [])
      = (Returned (scan_ok undated_catalogue), st') /\
    Breach.breach_date <$> recs = [1704067200000; 1615766400000] /\
    names (breaches_collection st') = ["Forum2019"; "Shop2021"].
Proof.
  split; [reflexivity|]. split; [reflexivity|].
  destruct (C9_absent_date_takes_the_fallback
              (world_of [Responded 200 (inr undated_catalogue)]) "example.org"
              (store [] [] []) undated_catalogue 1704067200000 eq_refl eq_refl)
    as (recs & st' & Hrun & Hfold & Hnf & _).
  - change (matching "example.org" undated_catalogue) with undated_catalogue.
    constructor; [left; reflexivity|].
    constructor; [|constructor].
    right. exists "2021-03-15", 1615766400000. split; reflexivity.
  - exists recs, st'. split; [exact Hrun|].
    change (matching "example.org" undated_catalogue) with undated_catalogue in Hnf.
    inversion Hnf as [|b1 r1 bs1 rs1 H1 Hnf1]; subst.
    inversion Hnf1 as [|b2 r2 bs2 rs2 H2 Hnf2]; subst.
    inversion Hnf2; subst.
    destruct H1 as (Hn1 & Hd1 & _). destruct H2 as (Hn2 & _ & Hd2 & _).
    specialize (Hd1 eq_refl). specialize (Hd2 _ eq_refl).
    destruct r1 as [i1 n1 ? ? d1 ? ? ? ? ?], r2 as [i2 n2 ? ? d2 ? ? ? ? ?].
    simpl in Hn1, Hn2, Hd1, Hd2. subst n1 n2 d1.
    assert (d2 = 1615766400000)
      by (change (inr 1615766400000 = inr (A:=string) d2) in Hd2; congruence).
    subst d2. split; [reflexivity|].
    change (breaches_collection st') with (breaches_collection st', oids_issued st').1.
    rewrite Hfold. vm_compute. reflexivity.
Defined.

Lemma C10_witness_whole_catalogue :
  hibp (world_of [Responded 200 (inr adobe_catalogue)]) 0
    = Responded 200 (inr adobe_catalogue) /\
  Forall (fun b => exists d,
            parsed_date (world_of [Responded 200 (inr adobe_catalogue)]) b = inr d)
         adobe_catalogue /\
  exists st',
    get_domain_breaches (world_of [Responded 200 (inr adobe_catalogue)])
                        "" (store [] [] [])
      = (Returned {| ScanResult.breaches := adobe_catalogue;
                     ScanResult.count := 3;
                     ScanResult.message := None;
                     ScanResult.error := None |}, st') /\
    "Adobe" ∈ names (breaches_collection st') /\
    "AdobeStock" ∈ names (breaches_collection st') /\
    "Dropbox" ∈ names (breaches_collection st').
Proof.
  assert (H : Forall (fun b => exists d,
                parsed_date (world_of [Responded 200 (inr adobe_catalogue)]) b = inr d)
              adobe_catalogue)
    by (apply parsed_all_check; vm_compute; reflexivity).
  split; [reflexivity|]. split; [exact H|].
  destruct (C10_empty_domain_matches_whole_catalogue
              (world_of [Responded 200 (inr adobe_catalogue)])
              (store [] [] []) adobe_catalogue eq_refl H)
    as (_ & recs & st' & Hrun & _ & _ & Hnames).
  exists st'. split; [exact Hrun|].
  repeat split; [apply (Hnames (entry "Adobe" "ADOBE.COM.AU" "2013-10-04"))
                |apply (Hnames (entry "AdobeStock" "www.adobe.com" "2019-10-25"))
                |apply (Hnames (entry "Dropbox" "dropbox.com" "2012-07-01"))];
    unfold adobe_catalogue; repeat constructor.
Defined.

(* ================================================================== *)
(** ** How the collections evolve under the endpoints *)

Lemma repository_evolves_trans c1 c2 c3 :
  repository_evolves c1 c2 -> repository_evolves c2 c3 -> repository_evolves c1 c3.
Proof. intros H12 H23. induction H23; [exact H12 | constructor; auto]. Qed.

Lemma watchlist_evolves_trans d1 d2 d3 :
  watchlist_evolves d1 d2 -> watchlist_evolves d2 d3 -> watchlist_evolves d1 d3.
Proof. intros H12 H23. induction H23; [exact H12 | constructor; auto]. Qed.

Lemma ledger_evolves_trans a1 a2 a3 :
  ledger_evolves a1 a2 -> ledger_evolves a2 a3 -> ledger_evolves a1 a3.
Proof.
  intros H12 H23. induction H23; [exact H12 | constructor; auto|].
  econstructor; eauto.
Qed.

Lemma evolves_trans st1 st2 st3 : evolves st1 st2 -> evolves st2 st3 -> evolves st1 st3.
Proof.
  intros (Hb & Hd & Ha) (Hb' & Hd' & Ha'). repeat split;
    eauto using repository_evolves_trans, watchlist_evolves_trans, ledger_evolves_trans.
Qed.

(** A step that leaves the three collections alone. *)
Lemma evolves_same st st' :
  breaches_collection st' = breaches_collection st ->
  domains_collection st' = domains_collection st ->
  alerts_collection st' = alerts_collection st ->
  evolves st st'.
Proof. intros Hb Hd Ha. unfold evolves. rewrite Hb, Hd, Ha. repeat constructor. Qed.

Lemma evolves_refl st : evolves st st.
Proof. apply evolves_same; reflexivity. Qed.

Section Evolution.

Variable W : World.

Lemma store_breach_evolves b st : evolves st (store_breach W b st).2.
Proof.
  destruct (parsed_date W b) as [t|d] eqn:E.
  - rewrite (store_breach_unparsed W _ _ _ E). apply evolves_same; reflexivity.
  - rewrite (store_breach_parsed W _ _ _ E). cbv zeta.
    split; [|split; constructor]. simpl.
    apply (repository_upsert _ _ (oids_issued st)), repository_same.
Qed.

Lemma store_all_evolves bs : forall st, evolves st (for_each bs (store_breach W) st).2.
Proof.
  induction bs as [|b bs IH]; intros st; simpl; [apply evolves_refl|].
  rewrite run_bind. pose proof (store_breach_evolves b st) as Hb.
  destruct (store_breach W b st) as [[[]|e] st1]; simpl in *; [|exact Hb].
  eapply evolves_trans; [exact Hb | apply IH].
Qed.

Lemma get_domain_breaches_evolves domain st :
  evolves st (get_domain_breaches W domain st).2.
Proof.
  rewrite get_domain_breaches_run.
  destruct (hibp W (requests_made st)) as [reason|code body];
    [apply evolves_same; reflexivity|].
  destruct (decide (code = 200)); [|apply evolves_same; reflexivity].
  destruct body as [text|catalogue]; [apply evolves_same; reflexivity|].
  pose proof (store_all_evolves (matching domain catalogue) (count_request st)) as H.
  destruct (for_each _ _ _) as [[[]|err] st']; exact H.
Qed.

Lemma alerted_evolves domain_name count st : evolves st (alerted W domain_name count st).
Proof.
  unfold alerted, alert_for. destruct (0 <? count); [|apply evolves_refl].
  split; [constructor|]. split; [constructor|]. simpl.
  constructor. constructor.
Qed.

Lemma scan_one_evolves scan_results d st : evolves st (scan_one W scan_results d st).2.
Proof.
  destruct (scan_one_returns W scan_results d st) as (r & st1 & Hscan & ->).
  pose proof (get_domain_breaches_evolves (Monitor.domain d) st) as H.
  rewrite Hscan in H. eapply evolves_trans; [exact H | apply alerted_evolves].
Qed.

Lemma scan_all_evolves ds : forall scan_results st,
  evolves st (for_fold ds scan_results (scan_one W) st).2.
Proof.
  induction ds as [|d ds IH]; intros rs st; simpl; [apply evolves_refl|].
  rewrite run_bind. pose proof (scan_one_evolves rs d st) as Hd.
  destruct (scan_one W rs d st) as [[rs'|e] st1]; simpl in *; [|exact Hd].
  eapply evolves_trans; [exact Hd | apply IH].
Qed.

Lemma comprehensive_scan_state st :
  (comprehensive_scan W st).2
  = (for_fold (domains_collection st) [] (scan_one W) st).2.
Proof.
  destruct (scan_all_returns W (domains_collection st) [] st)
    as (entries & new & st' & Hrun & _).
  rewrite (comprehensive_scan_run W st _ _ Hrun), Hrun. reflexivity.
Qed.

Lemma comprehensive_scan_evolves st : evolves st (comprehensive_scan W st).2.
Proof. rewrite comprehensive_scan_state. apply scan_all_evolves. Qed.

(** [add_domain_monitor], branch by branch. *)
Lemma add_domain_monitor_run domain_data st :
  add_domain_monitor W domain_data st =
  match list_find (fun m => Monitor.domain m = dm_domain domain_data)
                  (domains_collection st) with
  | Some (_, found) =>
      (Returned {| MonitorReply.message := "Domain already being monitored";
                   MonitorReply.id := Monitor._id found |},
       count_clock (count_uuid st))
  | None =>
      (Returned {| MonitorReply.message := "Domain monitoring activated";
                   MonitorReply.id := oids_issued st |},
       (get_domain_breaches W (dm_domain domain_data)
          (issue_oid
             (set_domains
                (domains_collection st
                 ++ [ {| Monitor._id := oids_issued st;
                         Monitor.id := uuid_source W (uuids_drawn st);
                         Monitor.domain := dm_domain domain_data;
                         Monitor.email_patterns := dm_email_patterns domain_data;
                         Monitor.created_at := clock W (clock_reads st);
                         Monitor.status := "active" |} ])
                (count_clock (count_uuid st))))).2)
  end.
Proof.
  unfold add_domain_monitor.
  rewrite run_bind. unfold uuid4 at 1. cbv beta iota.
  rewrite run_bind. unfold datetime_now at 1. cbv beta iota.
  rewrite run_bind. unfold domains_find_one.
  change (domains_collection (count_clock (count_uuid st)))
    with (domains_collection st).
  destruct (list_find _ _) as [[i found]|] eqn:E; [reflexivity|].
  change (snd <$> @None (nat * Monitor.doc)) with (@None Monitor.doc).
  cbv beta iota. rewrite run_bind. unfold domains_insert_one. cbv beta iota zeta.
  rewrite run_bind, run_try, run_bind.
  change (clock_reads (count_uuid st)) with (clock_reads st).
  change (domains_collection (count_clock (count_uuid st)))
    with (domains_collection st).
  change (oids_issued (count_clock (count_uuid st))) with (oids_issued st).
  match goal with
  | |- context [get_domain_breaches W _ ?s] =>
      destruct (get_domain_breaches_returns W (dm_domain domain_data) s)
        as (scan & st' & Hscan & _)
  end.
  rewrite Hscan. reflexivity.
Qed.

Lemma add_domain_monitor_evolves domain_data st :
  evolves st (add_domain_monitor W domain_data st).2.
Proof.
  rewrite add_domain_monitor_run.
  destruct (list_find _ _) as [[i found]|] eqn:E; [apply evolves_same; reflexivity|].
  eapply evolves_trans; [|apply get_domain_breaches_evolves].
  split; [constructor|]. split; [|constructor]. simpl.
  constructor; [constructor|].
  - apply list_find_None in E. rewrite Forall_forall in E.
    intros Hin. apply list_elem_of_fmap in Hin as (m & Hm & Hin).
    simpl in Hm. apply (E m Hin). congruence.
Qed.

Lemma search_email_breaches_state email st :
  (search_email_breaches W email st).2 = st.
Proof.
  unfold search_email_breaches. rewrite run_try, run_bind, email_domain_run.
  cbv beta iota. rewrite run_bind. unfold breaches_find_email.
  destruct (regex_i W (derived_domain email)); reflexivity.
Qed.

Lemma dismiss_alert_evolves alert_id st : evolves st (dismiss_alert W alert_id st).2.
Proof.
  rewrite dismiss_alert_run.
  destruct (list_find _ _) as [[i al]|] eqn:E; [|apply evolves_same; reflexivity].
  apply list_find_Some in E as (Hi & _).
  split; [constructor|]. split; [constructor|]. simpl.
  econstructor; [constructor | exact Hi].
Qed.

Lemma serve_evolves sort_desc c st : evolves st (serve W sort_desc c st).
Proof.
  destruct c; simpl.
  - apply get_domain_breaches_evolves.
  - apply add_domain_monitor_evolves.
  - apply evolves_refl.
  - rewrite search_email_breaches_state. apply evolves_refl.
  - apply evolves_refl.
  - apply comprehensive_scan_evolves.
  - apply dismiss_alert_evolves.
  - apply evolves_refl.
Qed.

Lemma serve_all_evolves sort_desc calls : forall st,
  evolves st (serve_all W sort_desc calls st).
Proof.
  unfold serve_all. induction calls as [|c calls IH]; intros st; simpl.
  - apply evolves_refl.
  - eapply evolves_trans; [apply serve_evolves | apply IH].
Qed.

End Evolution.

(* ================================================================== *)
(** ** What the evolution keeps *)

Lemma upsert_prefix s data :
  names s.1 `prefix_of` names (upsert s data).1 /\
  (Breach._id <$> s.1) `prefix_of` (Breach._id <$> (upsert s data).1).
Proof.
  split.
  - rewrite upsert_names. destruct (list_find _ _); [reflexivity|].
    apply prefix_app_r. reflexivity.
  - unfold upsert. destruct (list_find _ _) as [[i d]|] eqn:E; simpl.
    + apply list_find_Some in E as (Hi & _).
      rewrite list_fmap_insert. simpl.
      rewrite list_insert_id; [reflexivity|].
      rewrite list_lookup_fmap, Hi. reflexivity.
    + rewrite fmap_app. apply prefix_app_r. reflexivity.
Qed.

Lemma repository_evolves_keeps coll coll' :
  repository_evolves coll coll' ->
  (one_per_name coll -> one_per_name coll') /\
  names coll `prefix_of` names coll' /\
  (Breach._id <$> coll) `prefix_of` (Breach._id <$> coll').
Proof.
  induction 1 as [|coll coll' oid data _ (IH1 & IH2 & IH3)].
  - repeat split; [auto | reflexivity | reflexivity].
  - destruct (upsert_prefix (coll', oid) data) as (Hn & Hi).
    split; [|split].
    + intros H. apply (upsert_one_per_name (coll', oid)), IH1, H.
    + etrans; [exact IH2 | exact Hn].
    + etrans; [exact IH3 | exact Hi].
Qed.

Lemma watchlist_evolves_keeps ds ds' :
  watchlist_evolves ds ds' ->
  (one_per_domain ds -> one_per_domain ds') /\ ds `prefix_of` ds'.
Proof.
  induction 1 as [|ds ds' m _ (IH1 & IH2) Hm].
  - split; [auto | reflexivity].
  - split.
    + intros H. unfold one_per_domain, watched in *. rewrite fmap_app.
      apply NoDup_app. split; [apply IH1, H|]. split; [|apply NoDup_singleton].
      intros x Hx Hin. apply list_elem_of_singleton in Hin as ->. exact (Hm Hx).
    + apply prefix_app_r, IH2.
Qed.

Lemma set_dismissed_identity now al :
  alert_identity (set_dismissed now al) = alert_identity al.
Proof. reflexivity. Qed.

Lemma ledger_evolves_keeps als als' :
  ledger_evolves als als' ->
  forall i al, als !! i = Some al ->
  exists al',
    als' !! i = Some al' /\
    alert_identity al' = alert_identity al /\
    (Alert.status al = "dismissed" -> Alert.status al' = "dismissed").
Proof.
  induction 1 as [|als als' new _ IH|als als' j x now _ IH Hj]; intros i al Hi.
  - exists al. auto.
  - destruct (IH i al Hi) as (al' & Hi' & Hid & Hst).
    exists al'. split; [|auto]. apply lookup_app_l_Some, Hi'.
  - destruct (IH i al Hi) as (al' & Hi' & Hid & Hst).
    destruct (decide (j = i)) as [->|Hne].
    + exists (set_dismissed now x). split; [|split].
      * apply list_lookup_insert_eq. eapply lookup_lt_Some, Hj.
      * rewrite set_dismissed_identity. congruence.
      * reflexivity.
    + exists al'. split; [|auto]. rewrite list_lookup_insert_ne by exact Hne. exact Hi'.
Qed.

Lemma ledger_evolves_length als als' :
  ledger_evolves als als' -> (length als <= length als')%nat.
Proof.
  induction 1; [lia| rewrite length_app; simpl; lia | rewrite length_insert; lia].
Qed.
(* ================================================================== *)
(** ** Invariants over every sequence of requests *)

(** X1: one record per breach name is an invariant of the repository:
    whatever requests are served, in whatever world, a repository that
    had one record per name still has. *)
Theorem repository_one_record_per_name_always
    (W : World) (sort_desc : forall A : Type, (A -> datetime) -> list A -> list A)
    (calls : list Call) (st : State) :
  one_per_name (breaches_collection st) ->
  one_per_name (breaches_collection (serve_all W sort_desc calls st)).
Proof.
  destruct (serve_all_evolves W sort_desc calls st) as (Hb & _).
  apply repository_evolves_keeps, Hb.
Qed.

Lemma repository_one_record_per_name_always_witness :
  one_per_name (breaches_collection (store [linkedin_doc] [] [dismissed_alert])) /\
  one_per_name
    (breaches_collection
       (serve_all steady_world merge_sort_desc busy_day
          (store [linkedin_doc] [] [dismissed_alert]))).
Proof.
  assert (H : one_per_name (breaches_collection (store [linkedin_doc] [] [dismissed_alert])))
    by (apply NoDup_singleton).
  split; [exact H|].
  exact (repository_one_record_per_name_always steady_world merge_sort_desc busy_day
           (store [linkedin_doc] [] [dismissed_alert]) H).
Defined.

(** X2: the repository is never shrunk or reordered: after any sequence
    of requests every record that was stored is still at its position,
    under the same breach name and the same [_id]. *)
Theorem repository_records_stay
    (W : World) (sort_desc : forall A : Type, (A -> datetime) -> list A -> list A)
    (calls : list Call) (st : State) :
  names (breaches_collection st)
    `prefix_of` names (breaches_collection (serve_all W sort_desc calls st)) /\
  (Breach._id <$> breaches_collection st)
    `prefix_of` (Breach._id <$> breaches_collection (serve_all W sort_desc calls st)) /\
  (length (breaches_collection st)
   <= length (breaches_collection (serve_all W sort_desc calls st)))%nat.
Proof.
  destruct (serve_all_evolves W sort_desc calls st) as (Hb & _).
  destruct (repository_evolves_keeps _ _ Hb) as (_ & Hn & Hi).
  split; [exact Hn|]. split; [exact Hi|].
  apply prefix_length in Hn. unfold names in Hn. rewrite !length_fmap in Hn. exact Hn.
Qed.

(** X3: no domain is watched twice, and a watchlist entry is never
    changed or removed: after any sequence of requests the old watchlist
    is the beginning of the new one, and a watchlist without repeated
    domains stays without. *)
Theorem watchlist_entries_stay_and_stay_unique
    (W : World) (sort_desc : forall A : Type, (A -> datetime) -> list A -> list A)
    (calls : list Call) (st : State) :
  domains_collection st
    `prefix_of` domains_collection (serve_all W sort_desc calls st) /\
  (one_per_domain (domains_collection st) ->
   one_per_domain (domains_collection (serve_all W sort_desc calls st))).
Proof.
  destruct (serve_all_evolves W sort_desc calls st) as (_ & Hd & _).
  destruct (watchlist_evolves_keeps _ _ Hd) as (H1 & H2). auto.
Qed.

(** X4: an alert is never deleted, renumbered or re-activated: after any
    sequence of requests the alert at a position of the ledger is still
    the alert at that position, with the fields it was created with, and
    if it was dismissed it is still dismissed. *)
Theorem ledger_alerts_stay_and_stay_dismissed
    (W : World) (sort_desc : forall A : Type, (A -> datetime) -> list A -> list A)
    (calls : list Call) (st : State) (i : nat) (al : Alert.doc) :
  alerts_collection st !! i = Some al ->
  exists al',
    alerts_collection (serve_all W sort_desc calls st) !! i = Some al' /\
    alert_identity al' = alert_identity al /\
    (Alert.status al = "dismissed" -> Alert.status al' = "dismissed").
Proof.
  destruct (serve_all_evolves W sort_desc calls st) as (_ & _ & Ha).
  apply ledger_evolves_keeps, Ha.
Qed.

Lemma ledger_alerts_stay_and_stay_dismissed_witness :
  alerts_collection (store [linkedin_doc] [] [dismissed_alert]) !! 0%nat
    = Some dismissed_alert /\
  exists al',
    alerts_collection
      (serve_all steady_world merge_sort_desc busy_day
         (store [linkedin_doc] [] [dismissed_alert])) !! 0%nat = Some al' /\
    alert_identity al' = alert_identity dismissed_alert /\
    (Alert.status dismissed_alert = "dismissed" -> Alert.status al' = "dismissed").
Proof.
  split; [reflexivity|].
  exact (ledger_alerts_stay_and_stay_dismissed steady_world merge_sort_desc busy_day
           (store [linkedin_doc] [] [dismissed_alert]) 0 dismissed_alert eq_refl).
Defined.

(* ================================================================== *)
(** ** More on [get_domain_breaches] *)

Lemma for_each_app {A} (xs ys : list A) (body : A -> M unit) (st : State) :
  for_each (xs ++ ys) body st =
  match for_each xs body st with
  | (Returned _, st') => for_each ys body st'
  | (Raised e, st') => (Raised e, st')
  end.
Proof.
  revert st. induction xs as [|x xs IH]; intros st; simpl; [reflexivity|].
  rewrite !run_bind. destruct (body x st) as [[[]|e] st1]; [apply IH | reflexivity].
Qed.

Lemma upsert_known s data :
  Breach.breach_name data ∈ names s.1 ->
  names (upsert s data).1 = names s.1 /\ (upsert s data).2 = s.2.
Proof.
  intros Hin. apply list_elem_of_fmap in Hin as (d & Hd & Hin).
  destruct (list_find_elem_of (named (Breach.breach_name data)) s.1 d Hin)
    as [[i d'] E]; [unfold named; congruence|].
  split; [rewrite upsert_names, E; reflexivity|].
  unfold upsert. rewrite E. reflexivity.
Qed.

Lemma upsert_all_known recs : forall s,
  (forall r, r ∈ recs -> Breach.breach_name r ∈ names s.1) ->
  names (foldl upsert s recs).1 = names s.1 /\ (foldl upsert s recs).2 = s.2.
Proof.
  induction recs as [|r recs IH]; intros s H; simpl; [auto|].
  destruct (upsert_known s r) as (Hn & Ho); [apply H; left|].
  destruct (IH (upsert s r)) as (Hn' & Ho').
  - intros r' Hr'. rewrite Hn. apply H. right. exact Hr'.
  - split; congruence.
Qed.

Lemma upsert_all_prefix recs : forall s,
  (Breach._id <$> s.1) `prefix_of` (Breach._id <$> (foldl upsert s recs).1).
Proof.
  induction recs as [|r recs IH]; intros s; simpl; [reflexivity|].
  etrans; [apply upsert_prefix | apply IH].
Qed.

Lemma normal_form_known (W : World) bs recs :
  Forall2 (normal_form W) bs recs ->
  forall r, r ∈ recs ->
  exists b, b ∈ bs /\ Breach.breach_name r = default EmptyString (Raw.Name b).
Proof.
  induction 1 as [|b0 r0 bs recs H0 _ IH]; intros r Hr; [inversion Hr|].
  apply elem_of_cons in Hr as [->|Hr].
  - exists b0. split; [left | apply H0].
  - destruct (IH r Hr) as (b & Hb & Hn). exists b. split; [right; exact Hb | exact Hn].
Qed.

(** X5: scanning a domain again adds nothing. When the provider sends
    the same catalogue to a second scan of the same domain, the reply is
    the same, no record is added, and every record keeps its [_id]: the
    matched entries overwrite the records the first scan left. *)
Theorem second_scan_adds_no_record
    (W : World) (domain : string) (catalogue : list Raw.breach)
    (st st1 : State) (r1 : ScanResult.t) :
  hibp W (requests_made st) = Responded 200 (inr catalogue) ->
  Forall (fun b => exists d, parsed_date W b = inr d) (matching domain catalogue) ->
  get_domain_breaches W domain st = (Returned r1, st1) ->
  hibp W (requests_made st1) = Responded 200 (inr catalogue) ->
  exists st2,
    get_domain_breaches W domain st1 = (Returned r1, st2) /\
    names (breaches_collection st2) = names (breaches_collection st1) /\
    Breach._id <$> breaches_collection st2 = Breach._id <$> breaches_collection st1 /\
    oids_issued st2 = oids_issued st1.
Proof.
  intros Hget Hdates Hrun1 Hget2.
  destruct (get_domain_breaches_success W domain st catalogue Hget Hdates)
    as (recs1 & st1' & Hrun1' & _ & _ & Hnames1 & _).
  rewrite Hrun1 in Hrun1'. injection Hrun1' as -> <-.
  destruct (get_domain_breaches_success W domain st1 catalogue Hget2 Hdates)
    as (recs2 & st2 & Hrun2 & Hnf2 & Hfold2 & _).
  exists st2. split; [exact Hrun2|].
  destruct (upsert_all_known recs2 (breaches_collection st1, oids_issued st1))
    as (Hn & Ho).
  { intros r Hr. destruct (normal_form_known W _ _ Hnf2 r Hr) as (b & Hb & ->).
    apply Hnames1, Hb. }
  rewrite <- Hfold2 in Hn, Ho. simpl in Hn, Ho.
  split; [exact Hn|]. split; [|exact Ho].
  symmetry. apply prefix_length_eq.
  - pose proof (upsert_all_prefix recs2 (breaches_collection st1, oids_issued st1)) as Hp.
    rewrite <- Hfold2 in Hp. exact Hp.
  - rewrite !length_fmap.
    assert (Hl : length (names (breaches_collection st2))
                 = length (names (breaches_collection st1))) by (rewrite Hn; reflexivity).
    unfold names in Hl. rewrite !length_fmap in Hl. lia.
Qed.

Lemma second_scan_adds_no_record_witness :
  hibp steady_world 0 = Responded 200 (inr two_match_catalogue) /\
  hibp steady_world 1 = Responded 200 (inr two_match_catalogue) /\
  exists st2,
    get_domain_breaches steady_world "x.com"
      (get_domain_breaches steady_world "x.com" (store [] [] [])).2
    = (Returned (scan_ok two_match_catalogue), st2) /\
    names (breaches_collection st2) = ["A"; "B"] /\
    oids_issued st2 = 2%nat.
Proof.
  split; [reflexivity|]. split; [reflexivity|].
  destruct (second_scan_adds_no_record steady_world "x.com" two_match_catalogue
              (store [] [] [])
              (get_domain_breaches steady_world "x.com" (store [] [] [])).2
              (scan_ok two_match_catalogue))
    as (st2 & Hrun & Hn & _ & Ho).
  - reflexivity.
  - apply parsed_all_check. vm_compute. reflexivity.
  - vm_compute. reflexivity.
  - reflexivity.
  - exists st2. split; [exact Hrun|]. split; [rewrite Hn | rewrite Ho]; vm_compute; reflexivity.
Defined.

(** X6: a matched entry whose date does not parse ends the scan where it
    stands. The matched entries before it are upserted in their normal
    form, it and the entries after it are not, and the reply is the
    empty result carrying the parser's message. *)
Theorem unparseable_date_keeps_the_entries_before_it
    (W : World) (domain : string) (st : State) (catalogue good rest : list Raw.breach)
    (bad : Raw.breach) (text : string) :
  hibp W (requests_made st) = Responded 200 (inr catalogue) ->
  matching domain catalogue = good ++ bad :: rest ->
  Forall (fun b => exists d, parsed_date W b = inr d) good ->
  parsed_date W bad = inl text ->
  exists recs st',
    get_domain_breaches W domain st
      = (Returned {| ScanResult.breaches := [];
                     ScanResult.count := 0;
                     ScanResult.message := None;
                     ScanResult.error := Some text |}, st') /\
    Forall2 (normal_form W) good recs /\
    (breaches_collection st', oids_issued st')
      = foldl upsert (breaches_collection st, oids_issued st) recs.
Proof.
  intros Hget Hm Hgood Hbad.
  apply (normalized_is_Some W _ (uuids_drawn st) (clock_reads st)) in Hgood
    as [recs Hrecs].
  destruct (store_all_parsed W good (count_request st) recs Hrecs)
    as (st1 & Hrun & Hfold & _).
  exists recs, (count_uuid st1).
  split; [|split; [eapply normalized_normal_form, Hrecs | exact Hfold]].
  rewrite get_domain_breaches_run, Hget. simpl. rewrite Hm, for_each_app, Hrun.
  simpl. rewrite run_bind, (store_breach_unparsed W _ _ _ Hbad). reflexivity.
Qed.

Lemma unparseable_date_keeps_the_entries_before_it_witness :
  hibp (world_of [Responded 200 (inr (rev misdated_catalogue))]) 0
    = Responded 200 (inr (rev misdated_catalogue)) /\
  matching "x.com" (rev misdated_catalogue)
    = [entry "B" "x.com" "2016-08-31"] ++ entry "A" "x.com" "31/08/2016" :: [] /\
  exists st',
    get_domain_breaches (world_of [Responded 200 (inr (rev misdated_catalogue))])
                        "x.com" (store [] [] [])
      = (Returned (scan_error "Invalid isoformat string: 31/08/2016"), st') /\
    names (breaches_collection st') = ["B"].
Proof.
  split; [reflexivity|]. split; [vm_compute; reflexivity|].
  destruct (unparseable_date_keeps_the_entries_before_it
              (world_of [Responded 200 (inr (rev misdated_catalogue))]) "x.com"
              (store [] [] []) (rev misdated_catalogue)
              [entry "B" "x.com" "2016-08-31"] []
              (entry "A" "x.com" "31/08/2016")
              "Invalid isoformat string: 31/08/2016")
    as (recs & st' & Hrun & Hnf & Hfold).
  - reflexivity.
  - vm_compute. reflexivity.
  - apply parsed_all_check. vm_compute. reflexivity.
  - vm_compute. reflexivity.
  - exists st'. split; [exact Hrun|].
    inversion Hnf as [|b1 r1 bs1 rs1 H1 Hnf1]; subst. inversion Hnf1; subst.
    destruct H1 as (Hn1 & _).
    change (breaches_collection st') with (breaches_collection st', oids_issued st').1.
    rewrite Hfold. destruct r1. simpl in Hn1. subst. reflexivity.
Defined.

(** X7: a provider call that fails stores nothing. When the request
    raises, the status is not 200 or the body is not JSON, the scan
    returns no matches and count 0 together with a message or an error
    text, and nothing but the request counter has moved. *)
Theorem failed_provider_call_stores_nothing
    (W : World) (domain : string) (st : State) :
  provider_failed (hibp W (requests_made st)) ->
  exists r,
    get_domain_breaches W domain st = (Returned r, count_request st) /\
    ScanResult.breaches r = [] /\ ScanResult.count r = 0 /\
    (is_Some (ScanResult.message r) \/ is_Some (ScanResult.error r)).
Proof.
  intros H. rewrite get_domain_breaches_run.
  destruct (hibp W (requests_made st)) as [reason|code body]; simpl in H.
  - eexists. repeat split. right. eauto.
  - destruct (decide (code = 200)) as [->|Hne].
    + destruct H as [H|[text ->]]; [contradiction|].
      eexists. repeat split. right. eauto.
    + eexists. repeat split. left. eauto.
Qed.

Lemma failed_provider_call_stores_nothing_witness :
  provider_failed (hibp (world_of [Responded 200 (inl "Expecting value")]) 0) /\
  exists r,
    get_domain_breaches (world_of [Responded 200 (inl "Expecting value")])
                        "adobe.com" (store [linkedin_doc] [] [])
      = (Returned r, count_request (store [linkedin_doc] [] [])) /\
    ScanResult.breaches r = [] /\ ScanResult.count r = 0 /\
    (is_Some (ScanResult.message r) \/ is_Some (ScanResult.error r)).
Proof.
  assert (H : provider_failed (hibp (world_of [Responded 200 (inl "Expecting value")]) 0))
    by (right; eauto).
  split; [exact H|].
  exact (failed_provider_call_stores_nothing
           (world_of [Responded 200 (inl "Expecting value")]) "adobe.com"
           (store [linkedin_doc] [] []) H).
Defined.

(* ================================================================== *)
(** ** The filter and the derived domain *)

Lemma append_assoc (a b c : string) : (a +:+ b) +:+ c = a +:+ (b +:+ c).
Proof. induction a as [|x a IH]; [reflexivity|]. rewrite !append_cons, IH. reflexivity. Qed.

Lemma substring_of_trans (a b c : string) :
  substring_of a b -> substring_of b c -> substring_of a c.
Proof.
  intros (p1 & q1 & ->) (p2 & q2 & ->).
  exists (p2 +:+ p1), (q1 +:+ q2). rewrite !append_assoc. reflexivity.
Qed.

(** X8: a longer query matches less. When the first query occurs inside
    the second, case apart, every catalogue entry the second query keeps
    is kept by the first, so the matches of the second are the matches
    of the first filtered once more. *)
Theorem longer_query_matches_fewer_entries
    (q1 q2 : string) (catalogue : list Raw.breach) :
  substring_of (lower q1) (lower q2) ->
  (forall b, domain_matches q2 b = true -> domain_matches q1 b = true) /\
  matching q2 catalogue
    = filter (fun b => domain_matches q2 b) (matching q1 catalogue) /\
  matching q2 catalogue `sublist_of` matching q1 catalogue.
Proof.
  intros Hsub.
  assert (Himp : forall b, domain_matches q2 b = true -> domain_matches q1 b = true).
  { intros b. rewrite !domain_matches_spec. apply substring_of_trans, Hsub. }
  assert (Heq : matching q2 catalogue
                = filter (fun b => domain_matches q2 b) (matching q1 catalogue)).
  { unfold matching. rewrite list_filter_filter_l; [reflexivity|].
    intros b Hb. apply Is_true_true. apply Himp, Is_true_true, Hb. }
  split; [exact Himp|]. split; [exact Heq|].
  rewrite Heq. apply sublist_filter.
Qed.

Lemma longer_query_matches_fewer_entries_witness :
  substring_of (lower "Adobe.com") (lower "www.ADOBE.com") /\
  matching "www.ADOBE.com" adobe_catalogue
    `sublist_of` matching "Adobe.com" adobe_catalogue.
Proof.
  assert (H : substring_of (lower "Adobe.com") (lower "www.ADOBE.com"))
    by (exists "www.", ""; reflexivity).
  split; [exact H|].
  exact (proj2 (proj2 (longer_query_matches_fewer_entries
                         "Adobe.com" "www.ADOBE.com" adobe_catalogue H))).
Defined.

(** X9: [search_email_breaches] reads only what stands between the first
    and the second '@' of the address. For an address with two '@' the
    domain it derives is the text between them, and the search returns
    the very records, count and error that it returns for the address
    cut before the second '@'; an address without '@' gives the empty
    pattern. *)
Theorem email_domain_stops_at_the_second_at
    (W : World) (local middle rest email : string) (st : State) :
  contains "@" local = false ->
  contains "@" middle = false ->
  email_domain (local +:+ String "@"%char (middle +:+ String "@"%char rest)) st
    = (Returned middle, st) /\
  (exists long short,
     search_email_breaches W
       (local +:+ String "@"%char (middle +:+ String "@"%char rest)) st
       = (Returned long, st) /\
     search_email_breaches W (local +:+ String "@"%char middle) st
       = (Returned short, st) /\
     EmailReply.breaches long = EmailReply.breaches short /\
     EmailReply.breaches_found long = EmailReply.breaches_found short /\
     EmailReply.error long = EmailReply.error short) /\
  (contains "@" email = false -> email_domain email st = (Returned EmptyString, st)).
Proof.
  intros Hl Hm.
  assert (Hlong : derived_domain
                    (local +:+ String "@"%char (middle +:+ String "@"%char rest))
                  = middle).
  { unfold derived_domain.
    assert (H : contains "@"
                  (local +:+ String "@"%char (middle +:+ String "@"%char rest)) = true)
      by (apply contains_spec; eexists local, _; reflexivity).
    rewrite H, (split_first _ _ _ Hl), (split_first _ _ _ Hm). reflexivity. }
  assert (Hshort : derived_domain (local +:+ String "@"%char middle) = middle)
    by (apply derived_domain_suffix; assumption).
  split; [rewrite email_domain_run, Hlong; reflexivity|]. split.
  - unfold search_email_breaches.
    rewrite !run_try, !run_bind, !email_domain_run, Hlong, Hshort.
    cbv beta iota. rewrite !run_bind. unfold breaches_find_email.
    destruct (regex_i W middle) as [text|search]; eexists _, _;
      (split; [reflexivity|]); (split; [reflexivity|]); repeat split.
  - intros H. rewrite email_domain_run. unfold derived_domain. rewrite H. reflexivity.
Qed.

Lemma email_domain_stops_at_the_second_at_witness :
  contains "@" "user" = false /\
  contains "@" "evil.org" = false /\
  email_domain "user@evil.org@adobe.com" (store [linkedin_doc] [] [])
    = (Returned "evil.org", store [linkedin_doc] [] []).
Proof.
  split; [reflexivity|]. split; [reflexivity|].
  exact (proj1 (email_domain_stops_at_the_second_at
                  (world_of []) "user" "evil.org" "adobe.com" ""
                  (store [linkedin_doc] [] []) eq_refl eq_refl)).
Defined.

(* ================================================================== *)
(** ** More on [comprehensive_scan] and [dismiss_alert] *)

Lemma scan_one_requests (W : World) scan_results d st :
  requests_made (scan_one W scan_results d st).2 = S (requests_made st).
Proof.
  destruct (get_domain_breaches_returns W (Monitor.domain d) st)
    as (r & st1 & Hscan & _ & _ & Hr).
  rewrite (scan_one_run W scan_results d st r st1 Hscan). simpl.
  destruct (alerted_frame W (Monitor.domain d) (ScanResult.count r) st1) as (_ & _ & ->).
  exact Hr.
Qed.

Lemma scan_all_requests (W : World) ds : forall scan_results st,
  requests_made (for_fold ds scan_results (scan_one W) st).2
  = (requests_made st + length ds)%nat.
Proof.
  induction ds as [|d ds IH]; intros rs st; simpl; [lia|].
  rewrite run_bind. pose proof (scan_one_requests W rs d st) as Hd.
  destruct (scan_one_returns W rs d st) as (r & st1 & _ & Hrun).
  rewrite Hrun in *. simpl in Hd. rewrite IH, Hd. lia.
Qed.

(** X10: a comprehensive scan asks the provider once for each watched
    domain and reports each of them once, in watchlist order; it leaves
    the watchlist as it is. With an empty watchlist the report is empty
    and the state is untouched. *)
Theorem comprehensive_scan_asks_once_per_domain (W : World) (st : State) :
  exists entries st',
    comprehensive_scan W st
    = (Returned {| ScanReport.message := "Comprehensive scan completed";
                   ScanReport.scanned_domains :=
                     Some (Z.of_nat (length (domains_collection st)));
                   ScanReport.results := Some entries;
                   ScanReport.error := None |}, st') /\
    ScanEntry.domain <$> entries = watched (domains_collection st) /\
    requests_made st' = (requests_made st + length (domains_collection st))%nat /\
    domains_collection st' = domains_collection st /\
    (domains_collection st = [] -> entries = [] /\ st' = st).
Proof.
  destruct (scan_all_returns W (domains_collection st) [] st)
    as (entries & new & st' & Hrun & Hdom & _ & _ & _ & _ & Hd).
  simpl in Hrun. exists entries, st'.
  assert (Hlen : length entries = length (domains_collection st)).
  { apply (f_equal length) in Hdom. rewrite !length_fmap in Hdom. exact Hdom. }
  split; [rewrite (comprehensive_scan_run W st entries st' Hrun), Hlen; reflexivity|].
  split; [exact Hdom|]. split; [|split; [exact Hd|]].
  - pose proof (scan_all_requests W (domains_collection st) [] st) as Hr.
    rewrite Hrun in Hr. exact Hr.
  - intros Hempty. rewrite Hempty in Hrun. simpl in Hrun.
    rewrite run_ret in Hrun. injection Hrun as <- <-. auto.
Qed.

Lemma active_count_app (l1 l2 : list Alert.doc) :
  active_count (l1 ++ l2) = active_count l1 + active_count l2.
Proof. unfold active_count. rewrite filter_app, length_app. lia. Qed.

Lemma active_count_cons (al : Alert.doc) (l : list Alert.doc) :
  active_count (al :: l)
  = (if decide (Alert.status al = "active") then 1 else 0) + active_count l.
Proof.
  unfold active_count. destruct (decide (Alert.status al = "active")) as [H|H].
  - rewrite filter_cons_True by exact H. simpl length. lia.
  - rewrite filter_cons_False by exact H. lia.
Qed.

Lemma active_count_dismiss (l : list Alert.doc) (i : nat) (al : Alert.doc) (now : datetime) :
  l !! i = Some al ->
  active_count (<[i := set_dismissed now al]> l)
  = active_count l - (if decide (Alert.status al = "active") then 1 else 0).
Proof.
  intros Hi. rewrite insert_take_drop by (eapply lookup_lt_Some, Hi).
  rewrite <- (take_drop_middle l i al Hi) at 3.
  rewrite !active_count_app, !active_count_cons.
  destruct (decide (Alert.status (set_dismissed now al) = "active")) as [H|_];
    [discriminate|].
  destruct (decide (Alert.status al = "active")); lia.
Qed.

(** X11: [dismiss_alert] touches one alert at most. It leaves the
    repository and the watchlist alone, keeps the length of the ledger,
    changes no alert with another id, and never raises the number of
    active alerts: that number falls by one when the first alert with
    the id was active, and stays otherwise. *)
Theorem dismiss_alert_touches_one_alert
    (W : World) (alert_id : string) (st : State) :
  breaches_collection (dismiss_alert W alert_id st).2 = breaches_collection st /\
  domains_collection (dismiss_alert W alert_id st).2 = domains_collection st /\
  length (alerts_collection (dismiss_alert W alert_id st).2)
    = length (alerts_collection st) /\
  (forall j al, alerts_collection st !! j = Some al -> Alert.id al <> alert_id ->
     alerts_collection (dismiss_alert W alert_id st).2 !! j = Some al) /\
  active_count (alerts_collection (dismiss_alert W alert_id st).2)
  = active_count (alerts_collection st)
    - match list_find (fun al => Alert.id al = alert_id) (alerts_collection st) with
      | Some (_, al) => if decide (Alert.status al = "active") then 1 else 0
      | None => 0
      end.
Proof.
  rewrite dismiss_alert_run.
  destruct (list_find _ _) as [[i al]|] eqn:E; simpl.
  - apply list_find_Some in E as (Hi & Hid & _).
    split; [reflexivity|]. split; [reflexivity|].
    split; [apply length_insert|]. split.
    + intros j x Hj Hne. rewrite list_lookup_insert_ne; [exact Hj|].
      intros ->. rewrite Hi in Hj. injection Hj as ->. contradiction.
    + apply active_count_dismiss, Hi.
  - repeat split; auto. lia.
Qed.

(* ================================================================== *)
(** ** The listings *)

(** The first [n] of a descending sort: what [sort(...).limit(n)] gives. *)
Lemma most_recent_spec
    (sort_desc : forall A : Type, (A -> datetime) -> list A -> list A)
    (A : Type) (key : A -> datetime) (n : nat) (l : list A) :
  sorts_descending sort_desc ->
  length (take n (sort_desc A key l)) = Nat.min n (length l) /\
  StronglySorted (fun x y => key y <= key x) (take n (sort_desc A key l)) /\
  exists rest,
    take n (sort_desc A key l) ++ rest ≡ₚ l /\
    forall x y, x ∈ take n (sort_desc A key l) -> y ∈ rest -> key y <= key x.
Proof.
  intros Hsort. destruct (Hsort A key l) as (Hperm & Hsorted).
  split; [rewrite length_take, (Permutation_length Hperm); reflexivity|].
  rewrite <- (take_drop n (sort_desc A key l)) in Hsorted.
  apply StronglySorted_app in Hsorted as (Hcross & Htake & _).
  split; [exact Htake|].
  exists (drop n (sort_desc A key l)). split; [rewrite take_drop; exact Hperm|].
  intros x y Hx Hy. exact (Hcross x y Hx Hy).
Qed.

Lemma merge_sort_desc_sorts : sorts_descending merge_sort_desc.
Proof.
  intros A key l. unfold merge_sort_desc. split.
  - apply merge_sort_Permutation.
  - apply StronglySorted_merge_sort.
    + intros x y z Hxy Hyz. lia.
    + intros x y. lia.
Qed.

Lemma get_dashboard_stats_run
    (sort_desc : forall A : Type, (A -> datetime) -> list A -> list A) (st : State) :
  get_dashboard_stats sort_desc st
  = (Returned
       {| Dashboard.total_breaches := Z.of_nat (length (breaches_collection st));
          Dashboard.monitored_domains := Z.of_nat (length (domains_collection st));
          Dashboard.active_alerts := active_count (alerts_collection st);
          Dashboard.recent_breaches :=
            take 5 (sort_desc Breach.doc
                      (fun d => Breach.breach_date (Breach.fields d))
                      (breaches_collection st));
          Dashboard.system_status := "operational" |}, st).
Proof. reflexivity. Qed.

(** X12: the dashboard lists the most recent breaches. Given a store that
    sorts as it promises, [get_dashboard_stats] changes nothing and its
    recent breaches are at most five records of the repository (all of
    them when it holds five or fewer), the latest breach date first, and
    no record left out has a later breach date than a record listed. *)
Theorem dashboard_lists_the_latest_breaches
    (sort_desc : forall A : Type, (A -> datetime) -> list A -> list A) (st : State) :
  sorts_descending sort_desc ->
  exists board rest,
    get_dashboard_stats sort_desc st = (Returned board, st) /\
    length (Dashboard.recent_breaches board)
      = Nat.min 5 (length (breaches_collection st)) /\
    StronglySorted
      (fun x y => Breach.breach_date (Breach.fields y)
                  <= Breach.breach_date (Breach.fields x))
      (Dashboard.recent_breaches board) /\
    Dashboard.recent_breaches board ++ rest ≡ₚ breaches_collection st /\
    (forall x y, x ∈ Dashboard.recent_breaches board -> y ∈ rest ->
       Breach.breach_date (Breach.fields y) <= Breach.breach_date (Breach.fields x)).
Proof.
  intros Hsort.
  destruct (most_recent_spec sort_desc Breach.doc
              (fun d => Breach.breach_date (Breach.fields d)) 5
              (breaches_collection st) Hsort) as (Hlen & Hsorted & rest & Hperm & Hcross).
  eexists _, rest. split; [apply get_dashboard_stats_run|]. simpl. auto.
Qed.

Lemma dashboard_lists_the_latest_breaches_witness :
  sorts_descending merge_sort_desc /\
  exists board rest,
    get_dashboard_stats merge_sort_desc (store [linkedin_doc] [] [])
      = (Returned board, store [linkedin_doc] [] []) /\
    length (Dashboard.recent_breaches board) = 1%nat /\
    Dashboard.recent_breaches board ++ rest ≡ₚ [linkedin_doc].
Proof.
  split; [exact merge_sort_desc_sorts|].
  destruct (dashboard_lists_the_latest_breaches merge_sort_desc
              (store [linkedin_doc] [] []) merge_sort_desc_sorts)
    as (board & rest & Hrun & Hlen & _ & Hperm & _).
  exists board, rest. auto.
Defined.

(** X13: [get_alerts] lists the most recent alerts. Given a store that
    sorts as it promises, it changes nothing and returns at most fifty
    alerts of the ledger (all of them when it holds fifty or fewer), the
    latest creation time first, and no alert left out was created later
    than an alert listed. *)
Theorem get_alerts_lists_the_latest_alerts
    (sort_desc : forall A : Type, (A -> datetime) -> list A -> list A) (st : State) :
  sorts_descending sort_desc ->
  exists alerts rest,
    get_alerts sort_desc st = (Returned alerts, st) /\
    length alerts = Nat.min 50 (length (alerts_collection st)) /\
    StronglySorted (fun x y => Alert.created_at y <= Alert.created_at x) alerts /\
    alerts ++ rest ≡ₚ alerts_collection st /\
    (forall x y, x ∈ alerts -> y ∈ rest -> Alert.created_at y <= Alert.created_at x).
Proof.
  intros Hsort.
  destruct (most_recent_spec sort_desc Alert.doc Alert.created_at 50
              (alerts_collection st) Hsort) as (Hlen & Hsorted & rest & Hperm & Hcross).
  eexists _, rest. split; [reflexivity|]. auto.
Qed.

Lemma get_alerts_lists_the_latest_alerts_witness :
  sorts_descending merge_sort_desc /\
  exists alerts,
    get_alerts merge_sort_desc (store [] [] [dismissed_alert; active_alert])
      = (Returned alerts, store [] [] [dismissed_alert; active_alert]) /\
    length alerts = 2%nat /\
    StronglySorted (fun x y => Alert.created_at y <= Alert.created_at x) alerts.
Proof.
  split; [exact merge_sort_desc_sorts|].
  destruct (get_alerts_lists_the_latest_alerts merge_sort_desc
              (store [] [] [dismissed_alert; active_alert]) merge_sort_desc_sorts)
    as (alerts & rest & Hrun & Hlen & Hsorted & _).
  exists alerts. auto.
Defined.

(* ================================================================== *)
(** ** The dashboard after a write *)

Lemma omap_alert_due_cons (e : ScanEntry.t) (entries : list ScanEntry.t) :
  omap alert_due (e :: entries)
  = match alert_due e with
    | Some due => due :: omap alert_due entries
    | None => omap alert_due entries
    end.
Proof. reflexivity. Qed.

Lemma alert_due_has_breaches (e : ScanEntry.t) :
  is_Some (alert_due e) <-> has_breaches e = true.
Proof.
  unfold alert_due, has_breaches.
  destruct (ScanEntry.breaches_found e) as [n|]; [|split; [intros [? ?]|]; discriminate].
  destruct (0 <? n); split; eauto; try discriminate. intros [? ?]. discriminate.
Qed.

Lemma omap_alert_due_length (entries : list ScanEntry.t) :
  length (omap alert_due entries)
  = length (filter (fun e => has_breaches e) entries).
Proof.
  induction entries as [|e entries IH]; [reflexivity|].
  rewrite omap_alert_due_cons. pose proof (alert_due_has_breaches e) as He.
  destruct (alert_due e) as [due|].
  - rewrite filter_cons_True by (apply Is_true_true, He; eauto).
    cbn [length]. rewrite IH. reflexivity.
  - rewrite filter_cons_False; [exact IH|].
    intros H. apply Is_true_true, He in H. destruct H. discriminate.
Qed.

Lemma active_count_all_active (l : list Alert.doc) :
  Forall (fun al => Alert.status al = "active") l ->
  active_count l = Z.of_nat (length l).
Proof.
  induction 1 as [|al l Hal _ IH]; [reflexivity|].
  rewrite active_count_cons, IH. destruct (decide _); [|contradiction].
  simpl length. lia.
Qed.

(** X14: the dashboard follows the writes. After a dismissal the number
    of active alerts it shows is one less when the first alert with the
    id was active and the same otherwise; after a comprehensive scan it
    is higher by the number of report entries that count at least one
    breach; after a registration the number of monitored domains is one
    more when the domain was new and the same when it was watched
    already. *)
Theorem dashboard_follows_the_writes
    (W : World) (sort_desc : forall A : Type, (A -> datetime) -> list A -> list A)
    (st : State) :
  (forall alert_id,
     exists before after,
       (get_dashboard_stats sort_desc st).1 = Returned before /\
       (get_dashboard_stats sort_desc (dismiss_alert W alert_id st).2).1
         = Returned after /\
       Dashboard.active_alerts after
       = Dashboard.active_alerts before
         - match list_find (fun al => Alert.id al = alert_id) (alerts_collection st) with
           | Some (_, al) => if decide (Alert.status al = "active") then 1 else 0
           | None => 0
           end) /\
  (exists before after report entries,
     (get_dashboard_stats sort_desc st).1 = Returned before /\
     (comprehensive_scan W st).1 = Returned report /\
     ScanReport.results report = Some entries /\
     (get_dashboard_stats sort_desc (comprehensive_scan W st).2).1 = Returned after /\
     Dashboard.active_alerts after
     = Dashboard.active_alerts before
       + Z.of_nat (length (filter (fun e => has_breaches e) entries)) /\
     Dashboard.monitored_domains after = Dashboard.monitored_domains before) /\
  (forall domain_data,
     exists before after,
       (get_dashboard_stats sort_desc st).1 = Returned before /\
       (get_dashboard_stats sort_desc (add_domain_monitor W domain_data st).2).1
         = Returned after /\
       Dashboard.monitored_domains after
       = Dashboard.monitored_domains before
         + (if decide (dm_domain domain_data ∈ watched (domains_collection st))
            then 0 else 1)).
Proof.
  split; [|split].
  - intros alert_id. eexists _, _. rewrite !get_dashboard_stats_run.
    split; [reflexivity|]. split; [reflexivity|]. simpl.
    rewrite dismiss_alert_run.
    destruct (list_find _ _) as [[i al]|] eqn:E; simpl; [|lia].
    apply list_find_Some in E as (Hi & _). apply active_count_dismiss, Hi.
  - destruct (scan_all_returns W (domains_collection st) [] st)
      as (entries & new & st' & Hrun & _ & _ & Hal & Hdue & Hact & Hd).
    simpl in Hrun.
    eexists _, _, _, entries. rewrite !get_dashboard_stats_run.
    rewrite (comprehensive_scan_run W st _ _ Hrun). simpl.
    split; [reflexivity|]. split; [reflexivity|]. split; [reflexivity|].
    split; [reflexivity|]. split; [|rewrite Hd; reflexivity].
    rewrite Hal, active_count_app, (active_count_all_active _ Hact).
    rewrite <- omap_alert_due_length, <- Hdue, length_fmap. reflexivity.
  - intros domain_data. eexists _, _. rewrite !get_dashboard_stats_run.
    split; [reflexivity|]. split; [reflexivity|]. simpl.
    rewrite add_domain_monitor_run.
    destruct (list_find _ _) as [[i found]|] eqn:E.
    + apply list_find_Some in E as (Hi & Hdom & _). simpl.
      destruct (decide _) as [_|Hout]; [lia|]. exfalso. apply Hout.
      apply list_elem_of_fmap. exists found. split; [congruence|].
      apply list_elem_of_lookup. eauto.
    + match goal with
      | |- context [get_domain_breaches W ?d ?s] =>
          destruct (get_domain_breaches_returns W d s) as (r & st' & Hscan & Hd & _)
      end.
      rewrite Hscan. simpl. rewrite Hd. simpl. rewrite length_app. simpl.
      destruct (decide _) as [Hin|_]; [|lia]. exfalso.
      apply list_find_None in E. rewrite Forall_forall in E.
      apply list_elem_of_fmap in Hin as (m & Hm & Hin). apply (E m Hin). congruence.
Qed.

(** X15: a registration can be listed. After [add_domain_monitor], for a
    new domain or a watched one, [get_monitored_domains] returns the
    watchlist and changes nothing, the watchlist holds an entry for the
    domain whose [_id] is the id the registration returned, and a
    comprehensive scan run next reports on that domain. *)
Theorem registered_domain_is_listed_and_scanned
    (W : World) (domain_data : DomainMonitor) (st : State) :
  exists reply st' m entries st'',
    add_domain_monitor W domain_data st = (Returned reply, st') /\
    get_monitored_domains st' = (Returned (domains_collection st'), st') /\
    m ∈ domains_collection st' /\
    Monitor.domain m = dm_domain domain_data /\
    Monitor._id m = MonitorReply.id reply /\
    comprehensive_scan W st'
    = (Returned {| ScanReport.message := "Comprehensive scan completed";
                   ScanReport.scanned_domains := Some (Z.of_nat (length entries));
                   ScanReport.results := Some entries;
                   ScanReport.error := None |}, st'') /\
    dm_domain domain_data ∈ (ScanEntry.domain <$> entries).
Proof.
  assert (Hscan : forall st' m,
    m ∈ domains_collection st' -> Monitor.domain m = dm_domain domain_data ->
    exists entries st'',
      comprehensive_scan W st'
      = (Returned {| ScanReport.message := "Comprehensive scan completed";
                     ScanReport.scanned_domains := Some (Z.of_nat (length entries));
                     ScanReport.results := Some entries;
                     ScanReport.error := None |}, st'') /\
      dm_domain domain_data ∈ (ScanEntry.domain <$> entries)).
  { intros st' m Hin Hdom.
    destruct (comprehensive_scan_completes W st')
      as (entries & new & st'' & Hrun & Hdoms & _).
    exists entries, st''. split; [exact Hrun|]. rewrite Hdoms, <- Hdom.
    apply list_elem_of_fmap. eauto. }
  rewrite add_domain_monitor_run.
  destruct (list_find _ _) as [[i found]|] eqn:E.
  - apply list_find_Some in E as (Hi & Hdom & _).
    assert (Hin : found ∈ domains_collection (count_clock (count_uuid st)))
      by (apply list_elem_of_lookup; eauto).
    destruct (Hscan _ found Hin Hdom) as (entries & st'' & Hrun & Hrep).
    eexists _, _, found, entries, st''. split; [reflexivity|].
    split; [reflexivity|]. auto.
  - match goal with
    | |- context [get_domain_breaches W ?d ?s] =>
        destruct (get_domain_breaches_returns W d s) as (r & st' & Hgdb & Hd & _)
    end.
    rewrite Hgdb. simpl snd. simpl in Hd.
    set (record := Monitor.Doc (oids_issued st) _ _ _ _ _) in *.
    assert (Hin : record ∈ domains_collection st')
      by (rewrite Hd; apply elem_of_app; right; left).
    destruct (Hscan st' record Hin eq_refl) as (entries & st'' & Hrun & Hrep).
    eexists _, st', record, entries, st''. split; [reflexivity|].
    split; [reflexivity|]. auto.
Qed.
